(** * Action-queue push events: effect -> trigger conversion and scheduling

    Shallow embedding of [src/controllers/action-queue/push.js] of the
    Edge wallet GUI, and the properties of its trigger converter, call-stack
    identifier builder, push-event assembler and push-server client. *)

From stdpp Require Import gmap strings list pretty.
From Stdlib Require Import ZArith Ascii.

(** ** JavaScript outcomes

    A synchronous call either returns or throws [new Error(message)]; an
    [async] function yields a promise that resolves, rejects, or (when it
    awaits something that never settles) stays pending. *)

Record Error := mkError { message : string }.

Inductive result (A : Type) : Type :=
| Ok (a : A)
| Throw (e : Error).
Arguments Ok {A} a.
Arguments Throw {A} e.

Inductive promise (A : Type) : Type :=
| Resolved (a : A)
| Rejected (e : Error)
| Pending.
Arguments Resolved {A} a.
Arguments Rejected {A} e.
Arguments Pending {A}.

Global Instance result_ret : MRet result := fun A a => Ok a.
Global Instance result_bind : MBind result := fun A B f m =>
  match m with
  | Ok a => f a
  | Throw e => Throw e
  end.

Global Instance promise_ret : MRet promise := fun A a => Resolved a.
Global Instance promise_bind : MBind promise := fun A B f m =>
  match m with
  | Resolved a => f a
  | Rejected e => Rejected e
  | Pending => Pending
  end.

(** An exception thrown inside an [async] body rejects its promise. *)
Definition settle {A} (r : result A) : promise A :=
  match r with
  | Ok a => Resolved a
  | Throw e => Rejected e
  end.

(** [Array.prototype.map] with a callback that may throw: elements are
    visited left to right and the first exception aborts the traversal. *)
Definition Array_map {A B} (f : A -> result B) : list A -> result (list B) :=
  fix go (l : list A) : result (list B) :=
    match l with
    | [] => Ok []
    | x :: l' =>
        match f x with
        | Throw e => Throw e
        | Ok y =>
            match go l' with
            | Throw e => Throw e
            | Ok ys => Ok (y :: ys)
            end
        end
    end.

(** [Array.prototype.join]. *)
Fixpoint Array_join (sep : string) (l : list string) : string :=
  match l with
  | [] => ""
  | [x] => x
  | x :: l' => x +:+ sep +:+ Array_join sep l'
  end.

(** [Promise.all]: rejects as soon as one member rejects (also when others
    never settle), stays pending when none rejects and one never settles,
    and otherwise resolves to the values in the order of the input array.
    When several members reject, JavaScript reports the one that rejects
    first in time; the model reports the one of least index. *)
Fixpoint Promise_all {A} (ps : list (promise A)) : promise (list A) :=
  match ps with
  | [] => Resolved []
  | p :: ps' =>
      match p, Promise_all ps' with
      | Rejected e, _ => Rejected e
      | _, Rejected e => Rejected e
      | Pending, _ => Pending
      | _, Pending => Pending
      | Resolved a, Resolved l => Resolved (a :: l)
      end
  end.

(** ** Wallet SDK objects read by this module *)

Record EdgeCurrencyInfo := { pluginId : string }.
Record EdgeCurrencyConfig := { config_currencyInfo : EdgeCurrencyInfo }.
Record EdgeCurrencyWallet := {
  currencyInfo : EdgeCurrencyInfo;
  currencyConfig : EdgeCurrencyConfig
}.
Record EdgeAccount := {
  rootLoginId : string;
  waitForCurrencyWallet : string -> promise EdgeCurrencyWallet
}.

Section Effects.

(** JavaScript numbers that are only carried along (rates, confirmation
    counts), and the fields of the variants whose payload this module
    never reads. *)
Context {number : Type}.
Context {fields : Type}.

(** The binary data the [asBase64] and [asHex] cleaners produce, and plain
    JSON values; both are opaque here. *)
Context {binary : Type}.
Context {Json : Type}.

#[local] Set Warnings "-register-all".

(** Modelled from the spec: the declaration of [ActionEffect] in
    [./types].  The variants and their fields are those listed in the data
    model and destructured in [push.js].  [opIndex] is the index of the running step in its sequence,
    a natural number, printed in decimal by the template literal. *)
Inductive ActionEffect : Type :=
| SeqEffect (opIndex : N) (childEffect : option ActionEffect)
| ParEffect (childEffects : list (option ActionEffect))
| AddressBalanceEffect (address walletId : string) (tokenId : option string)
    (aboveAmount belowAmount : option string)
| PriceLevelEffect (currencyPair : string) (aboveRate belowRate : option number)
| TxConfsEffect (walletId txId : string) (confirmations : number)
| DoneEffect (rest : fields)
| NoopEffect (rest : fields)
| PushEventsEffect (rest : fields)
| UnixtimeEffect (rest : fields).

(** The discriminating [type] field. *)
Definition effect_type (effect : ActionEffect) : string :=
  match effect with
  | SeqEffect _ _ => "seq"
  | ParEffect _ => "par"
  | AddressBalanceEffect _ _ _ _ _ => "address-balance"
  | PriceLevelEffect _ _ _ => "price-level"
  | TxConfsEffect _ _ _ => "tx-confs"
  | DoneEffect _ => "done"
  | NoopEffect _ => "noop"
  | PushEventsEffect _ => "push-events"
  | UnixtimeEffect _ => "unixtime"
  end.

(** Modelled from the spec: [PushTrigger] is declared in
    [./types/pushTypes]; its three variants are the object literals built
    by [actionEffectToPushTrigger]. *)
Inductive PushTrigger : Type :=
| AddressBalanceTrigger (pluginId : string) (tokenId : option string)
    (address : string) (aboveAmount belowAmount : option string)
| PriceLevelTrigger (currencyPair : string) (aboveRate belowRate : option number)
| TxConfirmTrigger (pluginId : string) (confirmations : number) (txid : string).

Definition trigger_type (trigger : PushTrigger) : string :=
  match trigger with
  | AddressBalanceTrigger _ _ _ _ _ => "address-balance"
  | PriceLevelTrigger _ _ _ => "price-level"
  | TxConfirmTrigger _ _ _ => "tx-confirm"
  end.

Definition NULL_EFFECT_PUSH_TRIGGER : string :=
  "Unexpected null effect while converting to PushTrigger. " +:+
  "This could be caused by a partial dryrun not properly short-circuiting.".

Definition NULL_EFFECT_CALL_STACK_ID : string :=
  "Unexpected null effect while converting to CallStackId. " +:+
  "This could be caused by a partial dryrun not properly short-circuiting.".

(** [actionEffectToPushTrigger]; [None] is the bare [return]. *)
Fixpoint actionEffectToPushTrigger (account : EdgeAccount)
    (effect : ActionEffect) : promise (option PushTrigger) :=
  match effect with
  | SeqEffect _ childEffect =>
      match childEffect with
      | None => Rejected (mkError NULL_EFFECT_PUSH_TRIGGER)
      | Some child => actionEffectToPushTrigger account child
      end
  | AddressBalanceEffect address walletId tokenId aboveAmount belowAmount =>
      wallet ← waitForCurrencyWallet account walletId;
      let pluginId := pluginId (currencyInfo wallet) in
      Resolved (Some
        (AddressBalanceTrigger pluginId tokenId address aboveAmount belowAmount))
  | PriceLevelEffect currencyPair aboveRate belowRate =>
      Resolved (Some (PriceLevelTrigger currencyPair aboveRate belowRate))
  | TxConfsEffect walletId txId confirmations =>
      wallet ← waitForCurrencyWallet account walletId;
      let pluginId := pluginId (currencyInfo wallet) in
      Resolved (Some (TxConfirmTrigger pluginId confirmations txId))
  | DoneEffect _ => Resolved None
  | NoopEffect _ => Resolved None
  | ParEffect _ => Resolved None
  | PushEventsEffect _ => Resolved None
  | UnixtimeEffect _ => Resolved None
  end.

(** [getCallStackId]. *)
Fixpoint getCallStackId (effect : ActionEffect) : result string :=
  match effect with
  | SeqEffect opIndex _ => Ok ("seq_" +:+ pretty opIndex)
  | ParEffect childEffects =>
      childCallStackIds ←
        Array_map (fun childEffect =>
          match childEffect with
          | None => Throw (mkError NULL_EFFECT_CALL_STACK_ID)
          | Some child => getCallStackId child
          end) childEffects;
      Ok ("par_" +:+ Array_join "_" childCallStackIds)
  | _ => Ok (effect_type effect)
  end.

(** ** Dry-run outputs and push events *)

Record EdgeTransaction := { signedTx : string }.

(** Modelled from the spec: [ExecutionOutput] and [ActionProgram] are
    declared in [./types]; an output is the resulting effect of a step and
    the transactions to broadcast, each with its wallet id and signed
    transaction, and of a program only [programId] is read. *)
Record ExecutionTx := { walletId : string; tx : EdgeTransaction }.
Record ExecutionOutput := {
  effect : ActionEffect;
  broadcastTxs : list ExecutionTx
}.
Record ActionProgram := { programId : string }.

(** Modelled from the spec: [PushMessage], [BroadcastTx] and
    [NewPushEvent] are declared in [./types/pushTypes]; their fields are
    those of the object literals [prepareNewPushEvents] builds. *)
Record PushMessage := { title : string; body : string }.
Record BroadcastTx := { tx_pluginId : string; rawTx : binary }.
Record NewPushEvent := {
  eventId : string;
  event_broadcastTxs : list BroadcastTx;
  pushMessage : option PushMessage;
  recurring : bool;
  trigger : PushTrigger
}.

(** ** Wire types of the push server *)

(** Modelled from the spec: the request and response bodies are declared
    in [./types/pushApiTypes]; the envelope is [{apiKey, deviceId, loginId}]
    with optional [data], the update payload is
    [{createEvents, removeEvents}], and the login payload lists
    [{eventId, state}] per event. *)
Record PushRequestBody := {
  apiKey : string;
  deviceId : string;
  loginId : binary;
  data : option Json
}.
Record LoginUpdatePayload := {
  createEvents : list NewPushEvent;
  removeEvents : list string
}.
Record PushEventStatus := { status_eventId : string; state : string }.
Record LoginPayload := { events : list PushEventStatus }.

(** What this module passes to [fetch] and reads of its response. *)
Record RequestInit := {
  method : string;
  headers : list (string * string);
  request_body : string
}.
Record Response := {
  ok : bool;
  status : N;
  text : promise string;
  json : promise Json
}.

(** What [console.error] is given on a failed upload. *)
Record FailedRequestLog := {
  responseBody : string;
  responseData : option Json
}.

(** ** Imports of the module: configuration, locale strings, cleaners
    and the network. *)
Variable AIRBITZ_API_KEY : string.
Variable pushServerUri : string.
Variable device_id : string.
Variable action_queue_push_notification_title : string.
Variable action_queue_push_notification_body : string.
Variable asBase64 : string -> result binary.
Variable asHex : string -> result binary.
Variable asErrorResponse : string -> result Json.
Variable asLoginPayload : Json -> result LoginPayload.
Variable wasLoginUpdatePayload : LoginUpdatePayload -> Json.
Variable wasPushRequestBody : PushRequestBody -> string.
Variable fetch : string -> RequestInit -> promise Response.

(** [asMaybe] of the cleaners library: a cleaner that throws yields
    [undefined] instead. *)
Definition asMaybe {A B} (cleaner : A -> result B) (raw : A) : option B :=
  match cleaner raw with
  | Ok v => Some v
  | Throw _ => None
  end.

(** The effect a step's trigger is taken from.  Inside the [map] callback
    [index - 1] is always in range; reading [.effect] of [undefined] would
    be a [TypeError]. *)
Definition prevEffectOf (initEffect : ActionEffect)
    (dryrunOutputs : list ExecutionOutput) (index : nat) : result ActionEffect :=
  if decide (0 < index) then
    match dryrunOutputs !! (index - 1) with
    | Some previous => Ok (effect previous)
    | None => Throw (mkError "TypeError: undefined is not an object")
    end
  else Ok initEffect.

Definition unsupportedEffect (prevEffect : ActionEffect) : Error :=
  mkError ("Unsupported effect type " +:+ effect_type prevEffect +:+
           " in conversion to PushTrigger").

(** The callback mapped over [output.broadcastTxs]. *)
Definition broadcastTxOf (account : EdgeAccount) (executionTx : ExecutionTx)
    : promise BroadcastTx :=
  wallet ← waitForCurrencyWallet account (walletId executionTx);
  let pluginId := pluginId (config_currencyInfo (currencyConfig wallet)) in
  rawTx ← settle (asHex (signedTx (tx executionTx)));
  Resolved {| tx_pluginId := pluginId; rawTx := rawTx |}.

(** The callback mapped over [dryrunOutputs]. *)
Definition pushEventOf (account : EdgeAccount) (programId : string)
    (pushMessage : PushMessage) (initEffect : ActionEffect)
    (dryrunOutputs : list ExecutionOutput)
    (index : nat) (output : ExecutionOutput) : promise NewPushEvent :=
  prevEffect ← settle (prevEffectOf initEffect dryrunOutputs index);
  callStackId ← settle (getCallStackId (effect output));
  let eventId := programId +:+ ":" +:+ callStackId in
  broadcastTxs ←
    Promise_all (map (broadcastTxOf account) (broadcastTxs output));
  trigger ← actionEffectToPushTrigger account prevEffect;
  match trigger with
  | None => Rejected (unsupportedEffect prevEffect)
  | Some trigger =>
      Resolved {|
        eventId := eventId;
        event_broadcastTxs := broadcastTxs;
        pushMessage :=
          if decide (Z.of_nat index = Z.of_nat (length dryrunOutputs) - 1)%Z
          then Some pushMessage else None;
        recurring := false;
        trigger := trigger
      |}
  end.

(** [prepareNewPushEvents]. *)
Definition prepareNewPushEvents (account : EdgeAccount)
    (program : ActionProgram) (initEffect : ActionEffect)
    (dryrunOutputs : list ExecutionOutput) : promise (list NewPushEvent) :=
  let programId := programId program in
  let pushMessage := {|
    title := action_queue_push_notification_title;
    body := action_queue_push_notification_body
  |} in
  Promise_all
    (imap (pushEventOf account programId pushMessage initEffect dryrunOutputs)
          dryrunOutputs).

Definition requestFailed (response : Response) : Error :=
  mkError ("Request failed with " +:+ pretty (status response)).

(** The [reduce] that indexes the statuses by event id; a later status
    replaces an earlier one with the same id. *)
Definition eventStatusMapOf (loginPayload : LoginPayload)
    : gmap string PushEventStatus :=
  foldl (fun map eventStatus => <[status_eventId eventStatus := eventStatus]> map)
        ∅ (events loginPayload).

Definition isEffectiveIn (eventStatusMap : gmap string PushEventStatus)
    (eventIds : list string) : bool :=
  forallb (fun eventId =>
    match eventStatusMap !! eventId with
    | Some status => bool_decide (state status ∈ ["triggered"; "complete"])
    | None => false
    end) eventIds.

(** [checkPushEvents]. *)
Definition checkPushEvents (account : EdgeAccount) (eventIds : list string)
    : promise bool :=
  loginId ← settle (asBase64 (rootLoginId account));
  let requestBody := {|
    apiKey := AIRBITZ_API_KEY;
    deviceId := device_id;
    loginId := loginId;
    data := None
  |} in
  response ← fetch (pushServerUri +:+ "/v2/login") {|
    method := "POST";
    headers := [("Content-Type", "application/json")];
    request_body := wasPushRequestBody requestBody
  |};
  if negb (ok response) then Rejected (requestFailed response)
  else
    data ← json response;
    loginPayload ← settle (asLoginPayload data);
    let eventStatusMap := eventStatusMapOf loginPayload in
    Resolved (isEffectiveIn eventStatusMap eventIds).

(** [effectCanBeATrigger]. *)
Definition effectCanBeATrigger (account : EdgeAccount) (effect : ActionEffect)
    : promise bool :=
  trigger ← actionEffectToPushTrigger account effect;
  Resolved (bool_decide (is_Some trigger)).

(** [uploadPushEvents]: the lines written to the console, and the
    outcome. *)
Definition uploadPushEvents (account : EdgeAccount)
    (newPushEvents : list NewPushEvent)
    : list FailedRequestLog * promise unit :=
  let loginUpdatePayload := {|
    createEvents := newPushEvents;
    removeEvents := []
  |} in
  match asBase64 (rootLoginId account) with
  | Throw e => ([], Rejected e)
  | Ok loginId =>
      let requestBody := {|
        apiKey := AIRBITZ_API_KEY;
        deviceId := device_id;
        loginId := loginId;
        data := Some (wasLoginUpdatePayload loginUpdatePayload)
      |} in
      match fetch (pushServerUri +:+ "/v2/login/update") {|
              method := "POST";
              headers := [("Content-Type", "application/json")];
              request_body := wasPushRequestBody requestBody
            |} with
      | Rejected e => ([], Rejected e)
      | Pending => ([], Pending)
      | Resolved response =>
          if negb (ok response) then
            match text response with
            | Rejected e => ([], Rejected e)
            | Pending => ([], Pending)
            | Resolved responseBody =>
                let responseData := asMaybe asErrorResponse responseBody in
                ([{| responseBody := responseBody;
                     responseData := responseData |}],
                 Rejected (requestFailed response))
            end
          else ([], Resolved ())
      end
  end.

End Effects.

Arguments ActionEffect : clear implicits.
Arguments PushTrigger : clear implicits.
Arguments ExecutionOutput : clear implicits.
Arguments BroadcastTx : clear implicits.
Arguments NewPushEvent : clear implicits.
Arguments PushRequestBody : clear implicits.
Arguments LoginUpdatePayload : clear implicits.
Arguments Response : clear implicits.
Arguments FailedRequestLog : clear implicits.

(** ** Auxiliary notions used in the statements *)

(** Whether character [c] occurs in [s]. *)
Fixpoint occurs (c : ascii) (s : string) : bool :=
  match s with
  | EmptyString => false
  | String a s' => if decide (a = c) then true else occurs c s'
  end.

(** The callback [getCallStackId] maps over the children of a [par]. *)
Definition childCallStackId {number fields}
    (childEffect : option (ActionEffect number fields)) : result string :=
  match childEffect with
  | None => Throw (mkError NULL_EFFECT_CALL_STACK_ID)
  | Some child => getCallStackId child
  end.

(** The tags of the variants that are neither [seq] nor [par]. *)
Definition leafTags : list string :=
  ["address-balance"; "price-level"; "tx-confs"; "done"; "noop";
   "push-events"; "unixtime"].

(** The status the server reported last for [eventId], if any. *)
Definition lastStatusOf (eventId : string) (statuses : list PushEventStatus)
    : option PushEventStatus :=
  last (filter (fun eventStatus => status_eventId eventStatus = eventId) statuses).

(** Step [index] of a program takes its trigger from [prevEffect]. *)
Definition triggerSource {number fields} (initEffect : ActionEffect number fields)
    (dryrunOutputs : list (ExecutionOutput number fields)) (index : nat)
    (prevEffect : ActionEffect number fields) : Prop :=
  (index = 0 ∧ prevEffect = initEffect) ∨
  (∃ previous, 0 < index ∧ dryrunOutputs !! (index - 1) = Some previous ∧
               prevEffect = effect previous).

(** The effect a chain of [seq] wrappers ends in, as the trigger converter
    walks it; [None] when the chain ends in a null child. *)
Fixpoint seqLeaf {number fields} (effect : ActionEffect number fields)
    : option (ActionEffect number fields) :=
  match effect with
  | SeqEffect _ None => None
  | SeqEffect _ (Some child) => seqLeaf child
  | _ => Some effect
  end.

(** Whether no [par] reachable through [par] children has a null child;
    the children of [seq] effects are not looked at. *)
Fixpoint parsComplete {number fields} (effect : ActionEffect number fields)
    : bool :=
  match effect with
  | ParEffect childEffects =>
      forallb (fun childEffect =>
                 match childEffect with
                 | None => false
                 | Some child => parsComplete child
                 end) childEffects
  | _ => true
  end.

(** The trigger tag the converter gives for an effect tag. *)
Definition triggerTagOf (effectTag : string) : option string :=
  if decide (effectTag = "address-balance") then Some "address-balance"
  else if decide (effectTag = "price-level") then Some "price-level"
  else if decide (effectTag = "tx-confs") then Some "tx-confirm"
  else None.

(** ** Concrete programs, wallets and servers *)

Module Sample.

Definition wallet (plugin : string) : EdgeCurrencyWallet := {|
  currencyInfo := {| pluginId := plugin |};
  currencyConfig := {| config_currencyInfo := {| pluginId := plugin |} |}
|}.

(** An account with the single wallet [w1] of plugin [bitcoin]; any other
    wallet never finishes loading. *)
Definition account : EdgeAccount := {|
  rootLoginId := "bG9naW4=";
  waitForCurrencyWallet := fun walletId =>
    if decide (walletId = "w1") then Resolved (wallet "bitcoin") else Pending
|}.

Definition effect_t : Type := ActionEffect N unit.

Definition done : effect_t := DoneEffect ().
Definition noop : effect_t := NoopEffect ().
Definition txConfs : effect_t := TxConfsEffect "w1" "t1" 1%N.
Definition balanceOf (address : string) : effect_t :=
  AddressBalanceEffect address "w1" None (Some "1000") None.
Definition priceLevel : effect_t := PriceLevelEffect "BTC_USD" (Some 5%N) None.

Definition program : ActionProgram := {| programId := "prog1" |}.

(** A cleaner that accepts every string as it is. *)
Definition asText (raw : string) : result string := Ok raw.
(** A cleaner that rejects everything. *)
Definition asNothing {A} (raw : string) : result A :=
  Throw (mkError "Expected an object").

(** One dry-run step that ends the program and broadcasts one
    transaction. *)
Definition lastStep : ExecutionOutput N unit := {|
  effect := done;
  broadcastTxs := [ {| walletId := "w1"; tx := {| signedTx := "c0ffee" |} |} ]
|}.

(** A step that waits for a confirmation, without transactions. *)
Definition waitingStep : ExecutionOutput N unit := {|
  effect := SeqEffect 1 (Some txConfs);
  broadcastTxs := []
|}.

(** A step left by a partial dry run: a [par] with a null child. *)
Definition partialStep : ExecutionOutput N unit := {|
  effect := ParEffect [None; Some done];
  broadcastTxs := []
|}.

Definition statuses : LoginPayload := {|
  events := [ {| status_eventId := "prog1:seq_1"; state := "triggered" |};
              {| status_eventId := "prog1:done"; state := "complete" |};
              {| status_eventId := "prog2:done"; state := "pending" |} ]
|}.

(** A server that answers every request with [response]. *)
Definition server (response : Response string)
    (url : string) (init : RequestInit) : promise (Response string) :=
  Resolved response.

Definition okResponse : Response string := {|
  ok := true; status := 200;
  text := Resolved "{}"; json := Resolved "statuses"
|}.

Definition errorResponse : Response string := {|
  ok := false; status := 500;
  text := Resolved "<html>Internal Server Error</html>";
  json := Rejected (mkError "SyntaxError: JSON Parse error")
|}.

Definition asStatuses (data : string) : result LoginPayload := Ok statuses.
Definition wasBody (requestBody : PushRequestBody string string) : string :=
  apiKey requestBody +:+ deviceId requestBody +:+ loginId requestBody.
Definition wasPayload (payload : LoginUpdatePayload N string) : string :=
  "payload".

(** Two last steps whose effects differ but have the same identifier;
    neither effect converts to a trigger. *)
Definition endingStep : ExecutionOutput N unit := {|
  effect := SeqEffect 2 (Some done);
  broadcastTxs := []
|}.
Definition endingStepNull : ExecutionOutput N unit := {|
  effect := SeqEffect 2 None;
  broadcastTxs := []
|}.


(** An error response whose body cannot be read. *)
Definition unreadableResponse : Response string := {|
  ok := false; status := 500;
  text := Rejected (mkError "TypeError: Network request failed");
  json := Rejected (mkError "TypeError: Network request failed")
|}.

End Sample.

(** ** Outcomes of [Promise.all] and of [map] *)

Section Outcomes.
Context {A B : Type}.
Implicit Types (ps : list (promise A)) (f : A -> result B).

Lemma Promise_all_resolved ps l :
  Promise_all ps = Resolved l ↔ ps = Resolved <$> l.
Proof.
  revert l. induction ps as [|p ps IH]; intros l; simpl.
  - split; [intros [= <-]; done | by intros ->%eq_sym%fmap_nil_inv].
  - destruct p as [a|e|], (Promise_all ps) as [l'|e'|] eqn:Hall;
      (split; [try discriminate | destruct l as [|a0 l0]; try discriminate]).
    + intros [= <-]. csimpl. f_equal. by apply IH.
    + intros [= -> Hps]. f_equal. f_equal.
      apply IH in Hps. congruence.
    + intros [= -> Hps]. apply IH in Hps. congruence.
    + intros [= -> Hps]. apply IH in Hps. congruence.
Qed.

Lemma Promise_all_length ps l :
  Promise_all ps = Resolved l → length l = length ps.
Proof. intros ->%Promise_all_resolved. by rewrite length_fmap. Qed.

Lemma Promise_all_lookup ps l i a :
  Promise_all ps = Resolved l → l !! i = Some a → ps !! i = Some (Resolved a).
Proof.
  intros ->%Promise_all_resolved Hi. by rewrite list_lookup_fmap, Hi.
Qed.

(** A member that does not resolve keeps the whole from resolving. *)
Lemma Promise_all_unresolved ps p l :
  p ∈ ps → (∀ a, p ≠ Resolved a) → Promise_all ps ≠ Resolved l.
Proof.
  intros Hin Hp ->%Promise_all_resolved.
  apply list_elem_of_fmap in Hin as (a & -> & _). by eapply Hp.
Qed.

(** A rejection of the whole is the rejection of a member. *)
Lemma Promise_all_rejected ps e :
  Promise_all ps = Rejected e → Rejected e ∈ ps.
Proof.
  induction ps as [|p ps IH]; simpl; [done|].
  destruct p as [a|e0|], (Promise_all ps) as [l'|e'|];
    intros [= <-]; first [ by left | right; by apply IH ].
Qed.

(** When every member settles and one rejects, the whole rejects. *)
Lemma Promise_all_rejects ps p :
  p ∈ ps → (∀ a, p ≠ Resolved a) → Forall (fun q => q ≠ Pending) ps →
  ∃ e, Promise_all ps = Rejected e.
Proof.
  intros Hin Hp Hset.
  destruct (Promise_all ps) as [l|e|] eqn:Hall; [| by eexists |].
  - by eapply Promise_all_unresolved in Hall.
  - exfalso. clear Hin Hp. induction Hset as [|q ps Hq _ IH]; [done|].
    simpl in Hall. destruct q, (Promise_all ps); naive_solver.
Qed.

Lemma Array_map_Ok f (l : list A) (ys : list B) :
  Array_map f l = Ok ys ↔ Forall2 (fun x y => f x = Ok y) l ys.
Proof.
  revert ys. induction l as [|x l IH]; intros ys; simpl.
  - split; [intros [= <-]; constructor | by intros ->%Forall2_nil_inv_l].
  - destruct (f x) as [y|e] eqn:Hx.
    + destruct (Array_map f l) as [ys'|e] eqn:Hl.
      * split.
        -- intros [= <-]. constructor; [done | by apply IH].
        -- intros (y' & ys'' & Hy & Hys & ->)%Forall2_cons_inv_l.
           apply IH in Hys. congruence.
      * split; [done|].
        intros (y' & ys'' & Hy & Hys & ->)%Forall2_cons_inv_l.
        apply IH in Hys. congruence.
    + split; [done|].
      intros (y' & ys'' & Hy & Hys & ->)%Forall2_cons_inv_l. congruence.
Qed.

Lemma Array_map_Throw f (l : list A) e :
  Array_map f l = Throw e → ∃ x, x ∈ l ∧ f x = Throw e.
Proof.
  induction l as [|x l IH]; simpl; [done|].
  destruct (f x) as [y|e0] eqn:Hx.
  - destruct (Array_map f l) as [ys|e1]; [done|]. intros [= ->].
    destruct IH as (x' & Hin & Hx'); [done|]. exists x'. split; [by right | done].
  - intros [= ->]. exists x. split; [by left | done].
Qed.

(** [map] throws as soon as the callback throws on some element. *)
Lemma Array_map_throws f (l : list A) x e :
  x ∈ l → f x = Throw e → ∃ e', Array_map f l = Throw e'.
Proof.
  intros Hin Hx. destruct (Array_map f l) as [ys|e'] eqn:Hl; [| by eexists].
  apply Array_map_Ok in Hl. exfalso.
  induction Hl as [|x' y l ys Hx' _ IH]; [by apply elem_of_nil in Hin|].
  apply elem_of_cons in Hin as [->|Hin]; [congruence | auto].
Qed.
End Outcomes.

(** ** Strings *)

Section Strings.
#[local] Arguments String.append !_ _ /.

Lemma occurs_app c s t : occurs c (s +:+ t) = occurs c s || occurs c t.
Proof. induction s as [|a s IH]; simpl; [done|]. by case_decide. Qed.

(** Two strings that agree up to a character neither prefix contains have
    the same prefix. *)
Lemma prefix_until c p q s t :
  occurs c p = false → occurs c q = false →
  p +:+ String c s = q +:+ String c t → p = q.
Proof.
  revert q. induction p as [|a p IH]; intros [|b q]; simpl; try done.
  - case_decide; [done|]. intros _ _ [= ? _]. congruence.
  - case_decide; [done|]. intros _ _ [= ? _]. congruence.
  - do 2 (case_decide; [done|]). intros Hp Hq [= -> Heq].
    f_equal. by apply IH.
Qed.

Lemma pretty_N_char_digit x : pretty_N_char x ≠ "_"%char.
Proof. unfold pretty_N_char. by repeat case_match. Qed.

Lemma pretty_N_go_occurs x s :
  occurs "_" s = false → occurs "_" (pretty_N_go x s) = false.
Proof.
  revert s. induction (N.lt_wf_0 x) as [x _ IH]; intros s Hs.
  destruct (N.eq_dec x 0) as [->|Hx]; [done|].
  rewrite pretty_N_go_step by lia.
  apply IH; [apply N.div_lt; lia|].
  simpl. case_decide as Hd; [by apply pretty_N_char_digit in Hd | done].
Qed.

(** The decimal form of an index has no underscore. *)
Lemma pretty_N_occurs (n : N) : occurs "_" (pretty n) = false.
Proof.
  unfold pretty, pretty_N. case_decide; [done|].
  by apply pretty_N_go_occurs.
Qed.

(** [join] of two ids. *)
Lemma Array_join_pair sep x y : Array_join sep [x; y] = x +:+ sep +:+ y.
Proof. done. Qed.
End Strings.

(** ** Call-stack identifiers *)

(** Case analysis on a hypothesis [H : x ∈ [t1; ...; tn]]. *)
Ltac each_tag H :=
  repeat (apply elem_of_cons in H as [->|H]);
  try (by apply elem_of_nil in H).

Section CallStackIds.
Context {number fields : Type}.
Implicit Types (effect : ActionEffect number fields)
               (children : list (option (ActionEffect number fields))).
#[local] Arguments String.append !_ _ /.

(** Structural induction through the children of [seq] and [par]. *)
Lemma ActionEffect_nested_ind (P : ActionEffect number fields → Prop) :
  (∀ opIndex, P (SeqEffect opIndex None)) →
  (∀ opIndex child, P child → P (SeqEffect opIndex (Some child))) →
  (∀ children,
      Forall (fun c => match c with Some child => P child | None => True end)
             children →
      P (ParEffect children)) →
  (∀ effect, effect_type effect ≠ "seq" → effect_type effect ≠ "par" →
             P effect) →
  ∀ effect, P effect.
Proof.
  intros Hnull Hseq Hpar Hleaf. fix IH 1.
  intros [opIndex [child|]|children| | | | | | |].
  - apply Hseq, IH.
  - apply Hnull.
  - apply Hpar. induction children as [|[child|] children IHc];
      constructor; solve [apply IH | exact I | exact IHc].
  - by apply Hleaf.
  - by apply Hleaf.
  - by apply Hleaf.
  - by apply Hleaf.
  - by apply Hleaf.
  - by apply Hleaf.
  - by apply Hleaf.
Qed.

Lemma getCallStackId_par children :
  getCallStackId (ParEffect children) =
  childCallStackIds ← Array_map childCallStackId children;
  Ok ("par_" +:+ Array_join "_" childCallStackIds).
Proof. done. Qed.

(** The only exception [getCallStackId] throws is the null-effect one. *)
Lemma getCallStackId_Throw effect e :
  getCallStackId effect = Throw e → e = mkError NULL_EFFECT_CALL_STACK_ID.
Proof.
  revert e. induction effect as [op|op child _|children IH|effect Hs Hp]
    using ActionEffect_nested_ind; intros e.
  - done.
  - done.
  - rewrite getCallStackId_par.
    destruct (Array_map _ children) as [ids|e'] eqn:Hmap; [done|].
    intros [= ->]. apply Array_map_Throw in Hmap as (c & Hin & Hc).
    rewrite Forall_forall in IH. specialize (IH c Hin).
    destruct c as [child|]; [by apply IH | by injection Hc].
  - by destruct effect.
Qed.

(** The shapes an identifier can have. *)
Lemma getCallStackId_shape effect id :
  getCallStackId effect = Ok id →
  (∃ opIndex : N, id = "seq_" +:+ pretty opIndex) ∨
  id ∈ leafTags ∨
  (effect_type effect = "par" ∧ ∃ joined, id = "par_" +:+ joined).
Proof.
  destruct effect as [op c|children| | | | | | |];
    try (intros [= <-]; right; left; unfold leafTags; set_solver).
  - intros [= <-]. left. by exists op.
  - rewrite getCallStackId_par.
    destruct (Array_map _ children) as [ids|e']; [|done].
    intros [= <-]. right. right. split; [done | by eexists].
Qed.

(** Swapping two different identifiers around the separator changes the
    string, unless both are identifiers of [par] effects. *)
Lemma swapped_ids_differ x y :
  (∃ opIndex : N, x = "seq_" +:+ pretty opIndex) ∨ x ∈ leafTags →
  (∃ opIndex : N, y = "seq_" +:+ pretty opIndex) ∨ y ∈ leafTags ∨
    (∃ joined, y = "par_" +:+ joined) →
  x ≠ y → x +:+ "_" +:+ y ≠ y +:+ "_" +:+ x.
Proof.
  unfold leafTags. intros Hx Hy Hne Heq.
  destruct Hx as [[n ->]|Hx]; destruct Hy as [[m ->]|[Hy|[j ->]]].
  - simpl in Heq. injection Heq as Heq.
    apply prefix_until in Heq; auto using pretty_N_occurs. congruence.
  - each_tag Hy; done.
  - done.
  - each_tag Hx; done.
  - each_tag Hx; each_tag Hy; done.
  - each_tag Hx; done.
Qed.

Lemma getCallStackId_pair effect1 effect2 id1 id2 :
  getCallStackId effect1 = Ok id1 → getCallStackId effect2 = Ok id2 →
  getCallStackId (ParEffect [Some effect1; Some effect2]) =
  Ok ("par_" +:+ id1 +:+ "_" +:+ id2).
Proof. intros H1 H2. rewrite getCallStackId_par. simpl. by rewrite H1, H2. Qed.
End CallStackIds.

(** ** The trigger converter *)

(** C1: the converter turns an [address-balance], [price-level] or
    [tx-confs] effect into a trigger that carries the effect's fields
    unchanged ([txId] as [txid], under the tag [tx-confirm]) together with
    the plugin id of the resolved wallet, and returns nothing for [done],
    [noop], [par], [push-events] and [unixtime]. *)
Theorem actionEffectToPushTrigger_cases {number fields : Type}
    (account : EdgeAccount) :
  (∀ address walletId tokenId aboveAmount belowAmount wallet,
      waitForCurrencyWallet account walletId = Resolved wallet →
      actionEffectToPushTrigger (number := number) (fields := fields) account
        (AddressBalanceEffect address walletId tokenId aboveAmount belowAmount)
      = Resolved (Some (AddressBalanceTrigger (pluginId (currencyInfo wallet))
                          tokenId address aboveAmount belowAmount))) ∧
  (∀ currencyPair aboveRate belowRate,
      actionEffectToPushTrigger (number := number) (fields := fields) account
        (PriceLevelEffect currencyPair aboveRate belowRate)
      = Resolved (Some (PriceLevelTrigger currencyPair aboveRate belowRate))) ∧
  (∀ walletId txId confirmations wallet,
      waitForCurrencyWallet account walletId = Resolved wallet →
      ∃ trigger,
        actionEffectToPushTrigger (number := number) (fields := fields) account
          (TxConfsEffect walletId txId confirmations) = Resolved (Some trigger) ∧
        trigger = TxConfirmTrigger (pluginId (currencyInfo wallet))
                    confirmations txId ∧
        trigger_type trigger = "tx-confirm") ∧
  (∀ effect : ActionEffect number fields,
      effect_type effect ∈ ["done"; "noop"; "par"; "push-events"; "unixtime"] →
      actionEffectToPushTrigger account effect = Resolved None).
Proof.
  repeat split.
  - intros * Hwallet. simpl. by rewrite Hwallet.
  - intros * Hwallet. eexists. simpl. rewrite Hwallet. by simpl.
  - intros effect Htag.
    destruct effect; try done; simpl in Htag;
      repeat (apply elem_of_cons in Htag as [Htag|Htag]; [discriminate|]);
      by apply elem_of_nil in Htag.
Qed.

Lemma actionEffectToPushTrigger_cases_witness :
  actionEffectToPushTrigger Sample.account (Sample.balanceOf "bc1q")
    = Resolved (Some (AddressBalanceTrigger "bitcoin" None "bc1q"
                        (Some "1000") None)) ∧
  actionEffectToPushTrigger Sample.account Sample.txConfs
    = Resolved (Some (TxConfirmTrigger "bitcoin" 1%N "t1")) ∧
  actionEffectToPushTrigger Sample.account Sample.done = Resolved None.
Proof.
  destruct (actionEffectToPushTrigger_cases (number := N) (fields := unit)
              Sample.account) as (Hbalance & _ & Hconfs & Hnone).
  split; [| split].
  - apply (Hbalance "bc1q" "w1" None (Some "1000") None (Sample.wallet "bitcoin")).
    reflexivity.
  - destruct (Hconfs "w1" "t1" 1%N (Sample.wallet "bitcoin") eq_refl)
      as (trigger & Hrun & -> & _).
    exact Hrun.
  - apply Hnone. simpl. apply list_elem_of_here.
Defined.

(** C2: on a [seq] effect the converter returns what it returns on the
    child, through any number of nested [seq] wrappers; when the child is
    null it fails with the null-effect error instead of returning
    nothing. *)
Theorem actionEffectToPushTrigger_seq {number fields : Type}
    (account : EdgeAccount) (opIndex : N) :
  (∀ child : ActionEffect number fields,
      actionEffectToPushTrigger account (SeqEffect opIndex (Some child))
      = actionEffectToPushTrigger account child) ∧
  (∀ (opIndices : list N) (child : ActionEffect number fields),
      actionEffectToPushTrigger account
        (foldr (fun op inner => SeqEffect op (Some inner)) child opIndices)
      = actionEffectToPushTrigger account child) ∧
  actionEffectToPushTrigger (number := number) (fields := fields) account
    (SeqEffect opIndex None) = Rejected (mkError NULL_EFFECT_PUSH_TRIGGER) ∧
  actionEffectToPushTrigger (number := number) (fields := fields) account
    (SeqEffect opIndex None) ≠ Resolved None.
Proof.
  split; [done|]. split; [|by split].
  intros opIndices child. induction opIndices as [|op opIndices IH]; [done|].
  simpl. exact IH.
Qed.

(** ** The call-stack identifier builder *)

(** C3: the identifier of a [seq] is [seq_<opIndex>]; the identifier of a
    [par] is [par_] followed by the identifiers of its children, in order,
    joined with [_], and building it fails with the null-effect error when
    a child is null; the identifier of any other effect is its tag. *)
Theorem getCallStackId_cases {number fields : Type} :
  (∀ opIndex (childEffect : option (ActionEffect number fields)),
      getCallStackId (SeqEffect opIndex childEffect)
      = Ok ("seq_" +:+ pretty opIndex)) ∧
  (∀ (children : list (ActionEffect number fields)) ids,
      Forall2 (fun child id => getCallStackId child = Ok id) children ids →
      getCallStackId (ParEffect (Some <$> children))
      = Ok ("par_" +:+ Array_join "_" ids)) ∧
  (∀ childEffects : list (option (ActionEffect number fields)),
      None ∈ childEffects →
      getCallStackId (ParEffect childEffects)
      = Throw (mkError NULL_EFFECT_CALL_STACK_ID)) ∧
  (∀ effect : ActionEffect number fields,
      effect_type effect ≠ "seq" → effect_type effect ≠ "par" →
      getCallStackId effect = Ok (effect_type effect)).
Proof.
  repeat split.
  - intros children ids Hids. rewrite getCallStackId_par.
    assert (Array_map childCallStackId (Some <$> children) = Ok ids) as ->; [|done].
    apply Array_map_Ok. by apply Forall2_fmap_l.
  - intros childEffects Hnull.
    destruct (Array_map_throws childCallStackId childEffects None
                (mkError NULL_EFFECT_CALL_STACK_ID) Hnull eq_refl) as [e He].
    assert (getCallStackId (ParEffect childEffects) = Throw e) as Hpar.
    { rewrite getCallStackId_par. by rewrite He. }
    by rewrite Hpar, (getCallStackId_Throw _ _ Hpar).
  - intros effect Hseq Hpar. by destruct effect.
Qed.

Lemma getCallStackId_cases_witness :
  getCallStackId (ParEffect [Some Sample.txConfs; Some Sample.done])
    = Ok "par_tx-confs_done" ∧
  getCallStackId (effect Sample.partialStep)
    = Throw (mkError NULL_EFFECT_CALL_STACK_ID) ∧
  getCallStackId Sample.txConfs = Ok "tx-confs".
Proof.
  destruct (getCallStackId_cases (number := N) (fields := unit))
    as (_ & Hpar & Hnull & Hleaf).
  split; [| split].
  - apply (Hpar [Sample.txConfs; Sample.done] ["tx-confs"; "done"]).
    repeat constructor.
  - apply Hnull. apply list_elem_of_here.
  - apply Hleaf; discriminate.
Defined.

(** Two [address-balance] effects on different addresses are different
    effects with the same identifier, so a [par] of them has the same
    identifier in either order. *)
Lemma getCallStackId_par_order_counterexample :
  Sample.balanceOf "bc1qa" ≠ Sample.balanceOf "bc1qb" ∧
  getCallStackId
    (ParEffect [Some (Sample.balanceOf "bc1qa"); Some (Sample.balanceOf "bc1qb")])
  = getCallStackId
    (ParEffect [Some (Sample.balanceOf "bc1qb"); Some (Sample.balanceOf "bc1qa")]).
Proof. split; [discriminate | reflexivity]. Qed.

(** Different identifiers are not enough when both children are [par]
    effects: swapping [par_done] and [par_done_par_done] gives the same
    string. *)
Example getCallStackId_par_children_commute :
  let A : Sample.effect_t := ParEffect [Some Sample.done] in
  let B : Sample.effect_t :=
    ParEffect [Some Sample.done; Some (ParEffect [Some Sample.done])] in
  getCallStackId A = Ok "par_done" ∧
  getCallStackId B = Ok "par_done_par_done" ∧
  getCallStackId (ParEffect [Some A; Some B])
  = getCallStackId (ParEffect [Some B; Some A]).
Proof. by repeat split. Qed.

(** C4 (amended): equal effects have equal identifiers; the identifier of
    [par [A, B]] lists the identifier of [A] before that of [B]; and it
    differs from the identifier of [par [B, A]] whenever the identifiers of
    [A] and [B] differ and at least one of the two is not a [par]. *)
Theorem getCallStackId_par_order {number fields : Type}
    (A B : ActionEffect number fields) :
  (∀ A', A = A' → getCallStackId A = getCallStackId A') ∧
  (∀ idA idB,
      getCallStackId A = Ok idA → getCallStackId B = Ok idB →
      getCallStackId (ParEffect [Some A; Some B])
      = Ok ("par_" +:+ idA +:+ "_" +:+ idB)) ∧
  (∀ idA idB,
      getCallStackId A = Ok idA → getCallStackId B = Ok idB → idA ≠ idB →
      effect_type A ≠ "par" ∨ effect_type B ≠ "par" →
      getCallStackId (ParEffect [Some A; Some B])
      ≠ getCallStackId (ParEffect [Some B; Some A])).
Proof.
  split; [by intros A' <- |]. split; [apply getCallStackId_pair|].
  intros idA idB HA HB Hne Hpar.
  rewrite (getCallStackId_pair _ _ _ _ HA HB), (getCallStackId_pair _ _ _ _ HB HA).
  intros [= Heq]. apply String.app_inj in Heq.
  pose proof (getCallStackId_shape _ _ HA) as SA.
  pose proof (getCallStackId_shape _ _ HB) as SB.
  assert (∀ (E : ActionEffect number fields) id,
            getCallStackId E = Ok id →
            (∃ opIndex : N, id = "seq_" +:+ pretty opIndex) ∨ id ∈ leafTags ∨
            (∃ joined, id = "par_" +:+ joined)) as Hany.
  { intros E id HE. destruct (getCallStackId_shape _ _ HE) as [?|[?|[_ ?]]]; auto. }
  destruct Hpar as [Hpar|Hpar].
  - apply (swapped_ids_differ idA idB); [| by eapply Hany | done | done].
    destruct SA as [?|[?|[? _]]]; [by left | by right | done].
  - apply (swapped_ids_differ idB idA); [| by eapply Hany | done | done].
    destruct SB as [?|[?|[? _]]]; [by left | by right | done].
Qed.

Lemma getCallStackId_par_order_witness :
  getCallStackId (ParEffect [Some Sample.txConfs; Some Sample.done])
  ≠ getCallStackId (ParEffect [Some Sample.done; Some Sample.txConfs]).
Proof.
  destruct (getCallStackId_par_order Sample.txConfs Sample.done)
    as (_ & _ & Hswap).
  apply (Hswap "tx-confs" "done"); [reflexivity | reflexivity | discriminate |].
  left. discriminate.
Defined.

(** C10: the identifier is not injective: [par [par [done, noop]]] and
    [par [par [done], noop]] are different effects and both have the
    identifier [par_par_done_noop]. *)
Theorem getCallStackId_not_injective {number fields : Type} (rest : fields) :
  ParEffect (number := number) [Some (ParEffect [Some (DoneEffect rest);
                                                 Some (NoopEffect rest)])]
  ≠ ParEffect [Some (ParEffect [Some (DoneEffect rest)]); Some (NoopEffect rest)] ∧
  getCallStackId (number := number)
    (ParEffect [Some (ParEffect [Some (DoneEffect rest); Some (NoopEffect rest)])])
  = Ok "par_par_done_noop" ∧
  getCallStackId (number := number)
    (ParEffect [Some (ParEffect [Some (DoneEffect rest)]); Some (NoopEffect rest)])
  = Ok "par_par_done_noop" ∧
  ¬ Inj (=) (=) (getCallStackId (number := number) (fields := fields)).
Proof.
  split; [discriminate|]. split; [done|]. split; [done|].
  intros Hinj.
  by specialize (Hinj
    (ParEffect [Some (ParEffect [Some (DoneEffect rest); Some (NoopEffect rest)])])
    (ParEffect [Some (ParEffect [Some (DoneEffect rest)]); Some (NoopEffect rest)])
    eq_refl).
Qed.

(** ** The push event assembler *)

Section Assembler.
Context {number fields binary : Type}.
Context (asHex : string → result binary).
Context (account : EdgeAccount) (programId : string) (message : PushMessage).
Context (initEffect : ActionEffect number fields).
Context (dryrunOutputs : list (ExecutionOutput number fields)).

Lemma prevEffectOf_source index prevEffect :
  prevEffectOf initEffect dryrunOutputs index = Ok prevEffect →
  triggerSource initEffect dryrunOutputs index prevEffect.
Proof.
  unfold prevEffectOf, triggerSource. case_decide as Hpos.
  - destruct (dryrunOutputs !! (index - 1)) as [previous|] eqn:Hprev; [|done].
    intros [= <-]. right. by exists previous.
  - intros [= <-]. left. split; [lia | done].
Qed.

Lemma triggerSource_prevEffectOf index prevEffect :
  triggerSource initEffect dryrunOutputs index prevEffect →
  prevEffectOf initEffect dryrunOutputs index = Ok prevEffect.
Proof.
  unfold prevEffectOf, triggerSource.
  intros [[-> ->]|(previous & Hpos & Hprev & ->)].
  - done.
  - rewrite decide_True by done. by rewrite Hprev.
Qed.

(** Inside the range of the outputs a step always has a trigger source. *)
Lemma triggerSource_total index :
  index < length dryrunOutputs →
  ∃ prevEffect, triggerSource initEffect dryrunOutputs index prevEffect.
Proof.
  intros Hlt. destruct index as [|index].
  - exists initEffect. by left.
  - destruct (lookup_lt_is_Some_2 dryrunOutputs index) as [previous Hprev];
      [lia|].
    exists (effect previous). right. exists previous.
    split; [lia|]. split; [|done]. by replace (S index - 1) with index by lia.
Qed.

(** What a step that resolves has gone through. *)
Lemma pushEventOf_resolved index output event :
  pushEventOf asHex account programId message initEffect dryrunOutputs
    index output = Resolved event →
  ∃ prevEffect callStackId broadcast pushTrigger,
    prevEffectOf initEffect dryrunOutputs index = Ok prevEffect ∧
    getCallStackId (effect output) = Ok callStackId ∧
    Promise_all (map (broadcastTxOf asHex account) (broadcastTxs output))
      = Resolved broadcast ∧
    actionEffectToPushTrigger account prevEffect = Resolved (Some pushTrigger) ∧
    event = {|
      eventId := programId +:+ ":" +:+ callStackId;
      event_broadcastTxs := broadcast;
      pushMessage :=
        if decide (Z.of_nat index = Z.of_nat (length dryrunOutputs) - 1)%Z
        then Some message else None;
      recurring := false;
      trigger := pushTrigger
    |}.
Proof.
  unfold pushEventOf.
  destruct (prevEffectOf _ _ _) as [prevEffect|?]; [|done].
  destruct (getCallStackId _) as [callStackId|?]; [|done].
  destruct (Promise_all _) as [broadcast| |]; [|done..].
  simpl. destruct (actionEffectToPushTrigger _ _) as [[pushTrigger|]| |]
    eqn:Hconv; [|done..].
  simpl. intros [= <-].
  exists prevEffect, callStackId, broadcast, pushTrigger. by repeat split.
Qed.

(** What a step does when nothing but the conversion can fail. *)
Lemma pushEventOf_settled index output prevEffect converted :
  triggerSource initEffect dryrunOutputs index prevEffect →
  (∃ callStackId, getCallStackId (effect output) = Ok callStackId) →
  Forall (fun executionTx =>
            ∃ broadcastTx, broadcastTxOf asHex account executionTx
                           = Resolved broadcastTx) (broadcastTxs output) →
  actionEffectToPushTrigger account prevEffect = Resolved converted →
  match converted with
  | None =>
      pushEventOf asHex account programId message initEffect dryrunOutputs
        index output = Rejected (unsupportedEffect prevEffect)
  | Some _ =>
      ∃ event,
        pushEventOf asHex account programId message initEffect dryrunOutputs
          index output = Resolved event
  end.
Proof.
  intros Hsource [callStackId Hid] Htxs Hconv.
  apply triggerSource_prevEffectOf in Hsource.
  assert (∃ broadcast,
            Promise_all (map (broadcastTxOf asHex account) (broadcastTxs output))
            = Resolved broadcast) as [broadcast Hall].
  { induction Htxs as [|executionTx txs [broadcastTx Htx] _ [rest IH]].
    - by exists [].
    - exists (broadcastTx :: rest). simpl. by rewrite Htx, IH. }
  unfold pushEventOf. rewrite Hsource, Hid. simpl. rewrite Hall. simpl.
  rewrite Hconv. simpl. destruct converted; [by eexists | done].
Qed.
End Assembler.

(** C5: when [prepareNewPushEvents] succeeds it returns one event per
    dry-run output, in the order of the outputs; the trigger of event [i] is
    the conversion of [initEffect] for [i = 0] and of the effect of output
    [i - 1] otherwise, and its id is [<programId>:<callStackId>] for the
    call-stack id of the effect of output [i]. *)
Theorem prepareNewPushEvents_events {number fields binary : Type}
    (title body : string) (asHex : string → result binary)
    (account : EdgeAccount) (program : ActionProgram)
    (initEffect : ActionEffect number fields)
    (dryrunOutputs : list (ExecutionOutput number fields))
    (events : list (NewPushEvent number binary)) :
  prepareNewPushEvents title body asHex account program initEffect dryrunOutputs
    = Resolved events →
  length events = length dryrunOutputs ∧
  ∀ i event, events !! i = Some event →
    ∃ output prevEffect callStackId,
      dryrunOutputs !! i = Some output ∧
      triggerSource initEffect dryrunOutputs i prevEffect ∧
      actionEffectToPushTrigger account prevEffect
        = Resolved (Some (trigger event)) ∧
      getCallStackId (effect output) = Ok callStackId ∧
      eventId event = programId program +:+ ":" +:+ callStackId.
Proof.
  unfold prepareNewPushEvents. intros Hall. split.
  - apply Promise_all_length in Hall. by rewrite length_imap in Hall.
  - intros i event Hevent.
    pose proof (Promise_all_lookup _ _ _ _ Hall Hevent) as Hstep.
    rewrite list_lookup_imap in Hstep.
    destruct (dryrunOutputs !! i) as [output|] eqn:Houtput; [|done].
    injection Hstep as Hstep.
    apply pushEventOf_resolved in Hstep
      as (prevEffect & callStackId & broadcast & pushTrigger
          & Hprev & Hid & _ & Hconv & ->).
    exists output, prevEffect, callStackId.
    split; [done|]. split; [by apply prevEffectOf_source|]. by repeat split.
Qed.

Lemma prepareNewPushEvents_events_witness :
  ∃ events,
    prepareNewPushEvents "Title" "Body" Sample.asText Sample.account
      Sample.program Sample.txConfs [Sample.waitingStep; Sample.lastStep]
    = Resolved events ∧
    length events = 2 ∧
    ∀ i event, events !! i = Some event →
      ∃ output prevEffect callStackId,
        [Sample.waitingStep; Sample.lastStep] !! i = Some output ∧
        triggerSource Sample.txConfs [Sample.waitingStep; Sample.lastStep]
          i prevEffect ∧
        actionEffectToPushTrigger Sample.account prevEffect
          = Resolved (Some (trigger event)) ∧
        getCallStackId (effect output) = Ok callStackId ∧
        eventId event = "prog1" +:+ ":" +:+ callStackId.
Proof.
  eexists. split; [reflexivity|].
  apply (prepareNewPushEvents_events "Title" "Body" Sample.asText Sample.account
           Sample.program Sample.txConfs [Sample.waitingStep; Sample.lastStep]).
  reflexivity.
Defined.

(** A step whose own effect is a [par] with a null child makes the
    assembly fail with the null-effect error of the identifier builder,
    also when its trigger source converts to nothing. *)
Lemma prepareNewPushEvents_unsupported_counterexample :
  triggerSource Sample.done [Sample.partialStep] 0 Sample.done ∧
  actionEffectToPushTrigger Sample.account Sample.done = Resolved None ∧
  prepareNewPushEvents "Title" "Body" Sample.asText Sample.account
    Sample.program Sample.done [Sample.partialStep]
  = Rejected (mkError NULL_EFFECT_CALL_STACK_ID) ∧
  ∀ prevEffect : Sample.effect_t,
    prepareNewPushEvents "Title" "Body" Sample.asText Sample.account
      Sample.program Sample.done [Sample.partialStep]
    ≠ Rejected (unsupportedEffect prevEffect).
Proof.
  split; [by left|]. split; [done|]. split; [done|].
  intros prevEffect. vm_compute. discriminate.
Qed.

(** C6 (amended): when the converter returns nothing for the trigger
    source of some step, [prepareNewPushEvents] returns no event list; and
    when moreover no step fails for another reason (every call-stack id is
    built, every broadcast transaction is prepared, every conversion
    returns), it fails with the unsupported-effect error of such a step. *)
Theorem prepareNewPushEvents_unsupported {number fields binary : Type}
    (title body : string) (asHex : string → result binary)
    (account : EdgeAccount) (program : ActionProgram)
    (initEffect : ActionEffect number fields)
    (dryrunOutputs : list (ExecutionOutput number fields))
    (index : nat) (prevEffect : ActionEffect number fields) :
  index < length dryrunOutputs →
  triggerSource initEffect dryrunOutputs index prevEffect →
  actionEffectToPushTrigger account prevEffect = Resolved None →
  (∀ events,
      prepareNewPushEvents title body asHex account program initEffect
        dryrunOutputs ≠ Resolved events) ∧
  ((∀ output, output ∈ dryrunOutputs →
      (∃ callStackId, getCallStackId (effect output) = Ok callStackId) ∧
      Forall (fun executionTx =>
                ∃ broadcastTx, broadcastTxOf asHex account executionTx
                               = Resolved broadcastTx) (broadcastTxs output)) →
   (∀ i source, i < length dryrunOutputs →
      triggerSource initEffect dryrunOutputs i source →
      ∃ converted, actionEffectToPushTrigger account source = Resolved converted) →
   ∃ i source,
     i < length dryrunOutputs ∧
     triggerSource initEffect dryrunOutputs i source ∧
     actionEffectToPushTrigger account source = Resolved None ∧
     prepareNewPushEvents title body asHex account program initEffect
       dryrunOutputs = Rejected (unsupportedEffect source)).
Proof.
  intros Hlt Hsource Hnone. unfold prepareNewPushEvents.
  set (message := {| title := title; body := body |}).
  set (step := pushEventOf asHex account (programId program) message
                 initEffect dryrunOutputs).
  destruct (lookup_lt_is_Some_2 dryrunOutputs index Hlt) as [output Houtput].
  assert (step index output ∈ imap step dryrunOutputs) as Hin.
  { apply list_elem_of_lookup. exists index.
    by rewrite list_lookup_imap, Houtput. }
  assert (∀ event, step index output ≠ Resolved event) as Hstuck.
  { intros event Hstep. apply pushEventOf_resolved in Hstep
      as (source & ? & ? & pushTrigger & Hprev & _ & _ & Hconv & _).
    apply triggerSource_prevEffectOf in Hsource. congruence. }
  split.
  - intros events. by eapply Promise_all_unresolved.
  - intros Hsteps Hconvs.
    assert (∀ i out, dryrunOutputs !! i = Some out →
              (∃ event, step i out = Resolved event) ∨
              (∃ source, triggerSource initEffect dryrunOutputs i source ∧
                         actionEffectToPushTrigger account source = Resolved None ∧
                         step i out = Rejected (unsupportedEffect source)))
      as Hsettled.
    { intros i out Hout.
      destruct (triggerSource_total initEffect dryrunOutputs i) as [source Hsrc];
        [by eapply lookup_lt_Some|].
      destruct (Hconvs i source) as [converted Hconv];
        [by eapply lookup_lt_Some | done |].
      destruct (Hsteps out) as [Hid Htxs]; [by eapply list_elem_of_lookup_2|].
      pose proof (pushEventOf_settled asHex account (programId program) message
                    initEffect dryrunOutputs i out source converted
                    Hsrc Hid Htxs Hconv) as Hstep.
      destruct converted; [by left | right; by exists source]. }
    destruct (Promise_all_rejects (imap step dryrunOutputs) (step index output))
      as [e Hrejected]; [done | done | |].
    { apply Forall_forall. intros p Hp.
      apply list_elem_of_lookup in Hp as [i Hp].
      rewrite list_lookup_imap in Hp.
      destruct (dryrunOutputs !! i) as [out|] eqn:Hout; [|done].
      injection Hp as <-.
      destruct (Hsettled i out Hout) as [[? ->]|(? & _ & _ & ->)]; done. }
    pose proof (Promise_all_rejected _ _ Hrejected) as Hmember.
    apply list_elem_of_lookup in Hmember as [i Hmember].
    rewrite list_lookup_imap in Hmember.
    destruct (dryrunOutputs !! i) as [out|] eqn:Hout; [|done].
    injection Hmember as Hmember.
    destruct (Hsettled i out Hout) as [[event Hstep]|(source & Hsrc & Hconv & Hstep)];
      [congruence|].
    exists i, source. split; [by eapply lookup_lt_Some|].
    split; [done|]. split; [done|]. congruence.
Qed.

Lemma prepareNewPushEvents_unsupported_witness :
  (∀ events,
      prepareNewPushEvents "Title" "Body" Sample.asText Sample.account
        Sample.program Sample.done [Sample.lastStep] ≠ Resolved events) ∧
  ∃ i source,
    i < 1 ∧
    triggerSource Sample.done [Sample.lastStep] i source ∧
    actionEffectToPushTrigger Sample.account source = Resolved None ∧
    prepareNewPushEvents "Title" "Body" Sample.asText Sample.account
      Sample.program Sample.done [Sample.lastStep]
    = Rejected (unsupportedEffect source).
Proof.
  destruct (prepareNewPushEvents_unsupported "Title" "Body" Sample.asText
              Sample.account Sample.program Sample.done [Sample.lastStep]
              0 Sample.done) as [Hnever Herror].
  - simpl. lia.
  - left. split; reflexivity.
  - reflexivity.
  - split; [exact Hnever|]. apply Herror.
    + intros output ->%list_elem_of_singleton. split.
      * exists "done". reflexivity.
      * repeat constructor. eexists. reflexivity.
    + intros i source Hi [[_ ->]|(previous & Hpos & _)]; [|simpl in Hi; lia].
      eexists. reflexivity.
Defined.

(** C7: in the list a successful [prepareNewPushEvents] returns, the event
    at the last index carries the push message, every earlier event carries
    none, and no event is recurring. *)
Theorem prepareNewPushEvents_pushMessage {number fields binary : Type}
    (title body : string) (asHex : string → result binary)
    (account : EdgeAccount) (program : ActionProgram)
    (initEffect : ActionEffect number fields)
    (dryrunOutputs : list (ExecutionOutput number fields))
    (events : list (NewPushEvent number binary)) :
  dryrunOutputs ≠ [] →
  prepareNewPushEvents title body asHex account program initEffect dryrunOutputs
    = Resolved events →
  (∃ event, events !! (length dryrunOutputs - 1) = Some event ∧
            pushMessage event = Some {| title := title; body := body |}) ∧
  (∀ i event, events !! i = Some event →
      (S i = length dryrunOutputs →
         pushMessage event = Some {| title := title; body := body |}) ∧
      (S i < length dryrunOutputs → pushMessage event = None) ∧
      recurring event = false).
Proof.
  unfold prepareNewPushEvents. intros Hne Hall.
  assert (∀ i event, events !! i = Some event →
            pushMessage event
              = (if decide (Z.of_nat i = Z.of_nat (length dryrunOutputs) - 1)%Z
                 then Some {| title := title; body := body |} else None) ∧
            recurring event = false) as Hevents.
  { intros i event Hevent.
    pose proof (Promise_all_lookup _ _ _ _ Hall Hevent) as Hstep.
    rewrite list_lookup_imap in Hstep.
    destruct (dryrunOutputs !! i) as [output|]; [|done].
    injection Hstep as Hstep.
    by apply pushEventOf_resolved in Hstep as (? & ? & ? & ? & _ & _ & _ & _ & ->). }
  split.
  - apply Promise_all_length in Hall. rewrite length_imap in Hall.
    destruct (lookup_lt_is_Some_2 events (length dryrunOutputs - 1))
      as [event Hevent].
    { destruct dryrunOutputs; [done | simpl in *; lia]. }
    exists event. split; [done|].
    destruct (Hevents _ _ Hevent) as [-> _]. apply decide_True.
    destruct dryrunOutputs; [done | simpl; lia].
  - intros i event Hevent. destruct (Hevents _ _ Hevent) as [-> Hrecurring].
    split; [|split; [|done]].
    + intros Hlast. apply decide_True. lia.
    + intros Hearlier. apply decide_False. lia.
Qed.

Lemma prepareNewPushEvents_pushMessage_witness :
  ∃ first last,
    prepareNewPushEvents "Title" "Body" Sample.asText Sample.account
      Sample.program Sample.txConfs [Sample.waitingStep; Sample.lastStep]
    = Resolved [first; last] ∧
    pushMessage first = None ∧
    pushMessage last = Some {| title := "Title"; body := "Body" |} ∧
    recurring first = false ∧ recurring last = false.
Proof.
  do 2 eexists. split; [reflexivity|].
  edestruct (prepareNewPushEvents_pushMessage "Title" "Body" Sample.asText
               Sample.account Sample.program Sample.txConfs
               [Sample.waitingStep; Sample.lastStep]) as [_ Hevents].
  - discriminate.
  - reflexivity.
  - destruct (Hevents 0 _ eq_refl) as (_ & Hfirst & Hr0).
    destruct (Hevents 1 _ eq_refl) as (Hlast & _ & Hr1).
    split; [apply Hfirst; simpl; lia|].
    split; [apply Hlast; reflexivity|].
    split; [exact Hr0 | exact Hr1].
Defined.

(** ** The push server client *)

(** The map built by the [reduce] holds, for each id, the status listed
    last under that id. *)
Lemma eventStatusMapOf_lookup (loginPayload : LoginPayload) (eventId : string) :
  eventStatusMapOf loginPayload !! eventId
  = lastStatusOf eventId (events loginPayload).
Proof.
  unfold eventStatusMapOf, lastStatusOf.
  assert (∀ (statuses : list PushEventStatus) (map : gmap string PushEventStatus),
            foldl (fun map eventStatus =>
                     <[status_eventId eventStatus := eventStatus]> map)
                  map statuses !! eventId
            = match last (filter (fun eventStatus =>
                                    status_eventId eventStatus = eventId) statuses)
              with
              | Some status => Some status
              | None => map !! eventId
              end) as Hfold.
  { induction statuses as [|eventStatus statuses IH]; intros map; [done|].
    simpl. rewrite IH, filter_cons. case_decide as Hid.
    - rewrite last_cons. destruct (last _); [done|].
      by rewrite <- Hid, lookup_insert_eq.
    - destruct (last _); [done|]. by rewrite lookup_insert_ne. }
  rewrite Hfold. destruct (last _); [done | apply lookup_empty].
Qed.

Lemma isEffectiveIn_true (eventStatusMap : gmap string PushEventStatus)
    (eventIds : list string) :
  isEffectiveIn eventStatusMap eventIds = true ↔
  ∀ eventId, eventId ∈ eventIds →
    ∃ status, eventStatusMap !! eventId = Some status ∧
              (state status = "triggered" ∨ state status = "complete").
Proof.
  unfold isEffectiveIn. rewrite forallb_forall.
  split; intros Hall eventId Hin.
  - apply list_elem_of_In in Hin. specialize (Hall eventId Hin).
    destruct (eventStatusMap !! eventId) as [status|]; [|done].
    exists status. split; [done|].
    apply bool_decide_eq_true in Hall.
    apply elem_of_cons in Hall as [?|Hall]; [by left|].
    apply elem_of_cons in Hall as [?|Hall]; [by right|].
    by apply elem_of_nil in Hall.
  - apply list_elem_of_In in Hin.
    destruct (Hall eventId Hin) as (status & -> & Hstate).
    apply bool_decide_eq_true.
    destruct Hstate as [-> | ->]; [apply list_elem_of_here|].
    apply list_elem_of_further, list_elem_of_here.
Qed.

(** A status found by [lastStatusOf] is one of the listed statuses and has
    the id asked for. *)
Lemma lastStatusOf_Some_elem (eventId : string)
    (statuses : list PushEventStatus) (status : PushEventStatus) :
  lastStatusOf eventId statuses = Some status →
  status ∈ statuses ∧ status_eventId status = eventId.
Proof.
  unfold lastStatusOf. intros Hlast%last_Some_elem_of.
  by apply list_elem_of_filter in Hlast as [? ?].
Qed.

(** An id under which nothing is listed has no status. *)
Lemma lastStatusOf_None (eventId : string) (statuses : list PushEventStatus) :
  (∀ status, status ∈ statuses → status_eventId status ≠ eventId) →
  lastStatusOf eventId statuses = None.
Proof.
  intros Hmissing.
  destruct (lastStatusOf eventId statuses) as [status|] eqn:Hlast; [|done].
  apply lastStatusOf_Some_elem in Hlast as [Hin Hid].
  by apply Hmissing in Hin.
Qed.

(** When every id is listed once, each listed status is the one found. *)
Lemma lastStatusOf_NoDup (statuses : list PushEventStatus)
    (status : PushEventStatus) :
  NoDup (status_eventId <$> statuses) → status ∈ statuses →
  lastStatusOf (status_eventId status) statuses = Some status.
Proof.
  unfold lastStatusOf.
  induction statuses as [|first statuses IH]; intros Hnodup Hin.
  - by apply elem_of_nil in Hin.
  - rewrite fmap_cons in Hnodup. apply NoDup_cons in Hnodup as [Hfresh Hnodup].
    rewrite filter_cons. apply elem_of_cons in Hin as [->|Hin].
    + rewrite decide_True by done.
      assert (filter (fun eventStatus =>
                        status_eventId eventStatus = status_eventId first)
                     statuses = []) as ->; [|done].
      destruct (filter _ statuses) as [|other others] eqn:Hfilter; [done|].
      assert (other ∈ filter (fun eventStatus =>
                status_eventId eventStatus = status_eventId first) statuses)
        as [Hid Hother]%list_elem_of_filter
        by (rewrite Hfilter; apply list_elem_of_here).
      exfalso. apply Hfresh. rewrite <- Hid. by apply list_elem_of_fmap_2.
    + rewrite decide_False; [by apply IH|].
      intros Hid. apply Hfresh. rewrite Hid. by apply list_elem_of_fmap_2.
Qed.

(** C8: on a successful response, [checkPushEvents] returns true exactly
    when every requested id is listed in the response with state
    [triggered] or [complete] (the status listed last counting when an id is
    listed more than once); an id that is not listed, or whose state is any
    other, makes it return false. *)
Theorem checkPushEvents_effective {binary Json : Type}
    (AIRBITZ_API_KEY pushServerUri device_id : string)
    (asBase64 : string → result binary)
    (asLoginPayload : Json → result LoginPayload)
    (wasPushRequestBody : PushRequestBody binary Json → string)
    (fetch : string → RequestInit → promise (Response Json))
    (account : EdgeAccount) (eventIds : list string)
    (loginId : binary) (response : Response Json) (data : Json)
    (loginPayload : LoginPayload) :
  asBase64 (rootLoginId account) = Ok loginId →
  fetch (pushServerUri +:+ "/v2/login") {|
      method := "POST";
      headers := [("Content-Type", "application/json")];
      request_body := wasPushRequestBody {|
        apiKey := AIRBITZ_API_KEY; deviceId := device_id;
        loginId := loginId; data := None |}
    |} = Resolved response →
  ok response = true →
  json response = Resolved data →
  asLoginPayload data = Ok loginPayload →
  ∃ isEffective,
    checkPushEvents AIRBITZ_API_KEY pushServerUri device_id asBase64
      asLoginPayload wasPushRequestBody fetch account eventIds
    = Resolved isEffective ∧
    (isEffective = true ↔
       ∀ eventId, eventId ∈ eventIds →
         ∃ status, lastStatusOf eventId (events loginPayload) = Some status ∧
                   (state status = "triggered" ∨ state status = "complete")) ∧
    (NoDup (status_eventId <$> events loginPayload) →
       (isEffective = true ↔
          ∀ eventId, eventId ∈ eventIds →
            ∃ status, status ∈ events loginPayload ∧
                      status_eventId status = eventId ∧
                      (state status = "triggered" ∨ state status = "complete"))) ∧
    (∀ eventId, eventId ∈ eventIds →
       (∀ status, status ∈ events loginPayload →
                  status_eventId status ≠ eventId) →
       isEffective = false) ∧
    (∀ eventId status, eventId ∈ eventIds →
       lastStatusOf eventId (events loginPayload) = Some status →
       state status ≠ "triggered" → state status ≠ "complete" →
       isEffective = false).
Proof.
  intros Hlogin Hfetch Hok Hjson Hclean.
  exists (isEffectiveIn (eventStatusMapOf loginPayload) eventIds).
  split.
  { unfold checkPushEvents. rewrite Hlogin. simpl. rewrite Hfetch. simpl.
    rewrite Hok. simpl. rewrite Hjson. simpl. by rewrite Hclean. }
  assert (isEffectiveIn (eventStatusMapOf loginPayload) eventIds = true ↔
            ∀ eventId, eventId ∈ eventIds →
              ∃ status, lastStatusOf eventId (events loginPayload) = Some status ∧
                        (state status = "triggered" ∨ state status = "complete"))
    as Hiff.
  { rewrite isEffectiveIn_true.
    split; intros Hall eventId Hin; destruct (Hall eventId Hin) as (status & ? & ?);
      exists status; by rewrite ?eventStatusMapOf_lookup in *. }
  split; [exact Hiff|]. split; [|split].
  - intros Hnodup. rewrite Hiff.
    split; intros Hall eventId Hin;
      destruct (Hall eventId Hin) as (status & Hstatus & Hstate).
    + apply lastStatusOf_Some_elem in Hstatus as [? ?]. by exists status.
    + destruct Hstate as [<- Hstate]. exists status.
      split; [by apply lastStatusOf_NoDup | done].
  - intros eventId Hin Hmissing. apply not_true_is_false.
    intros Htrue. rewrite Hiff in Htrue.
    destruct (Htrue eventId Hin) as (status & Hstatus & _).
    rewrite (lastStatusOf_None _ _ Hmissing) in Hstatus. done.
  - intros eventId status Hin Hstatus Htriggered Hcomplete.
    apply not_true_is_false. intros Htrue. rewrite Hiff in Htrue.
    destruct (Htrue eventId Hin) as (status' & Hstatus' & [?|?]); congruence.
Qed.

Lemma checkPushEvents_effective_witness :
  checkPushEvents "key" "https://push.example" "device" Sample.asText
    Sample.asStatuses Sample.wasBody (Sample.server Sample.okResponse)
    Sample.account ["prog1:seq_1"; "prog1:done"] = Resolved true ∧
  checkPushEvents "key" "https://push.example" "device" Sample.asText
    Sample.asStatuses Sample.wasBody (Sample.server Sample.okResponse)
    Sample.account ["prog1:seq_1"; "prog2:done"] = Resolved false ∧
  checkPushEvents "key" "https://push.example" "device" Sample.asText
    Sample.asStatuses Sample.wasBody (Sample.server Sample.okResponse)
    Sample.account ["prog1:seq_1"; "prog3:done"] = Resolved false.
Proof.
  pose proof (fun eventIds =>
    checkPushEvents_effective "key" "https://push.example" "device"
      Sample.asText Sample.asStatuses Sample.wasBody
      (Sample.server Sample.okResponse) Sample.account eventIds
      "bG9naW4=" Sample.okResponse "statuses" Sample.statuses
      eq_refl eq_refl eq_refl eq_refl eq_refl) as Hcheck.
  split; [|split].
  - destruct (Hcheck ["prog1:seq_1"; "prog1:done"])
      as (isEffective & -> & Hiff & _).
    f_equal. apply Hiff. intros eventId Hin.
    apply elem_of_cons in Hin as [->|Hin];
      [eexists; split; [reflexivity | by left]|].
    apply list_elem_of_singleton in Hin as ->.
    eexists; split; [reflexivity | by right].
  - destruct (Hcheck ["prog1:seq_1"; "prog2:done"])
      as (isEffective & -> & _ & _ & _ & Hother).
    f_equal. apply (Hother "prog2:done" {| status_eventId := "prog2:done";
                                            state := "pending" |});
      [ apply list_elem_of_further, list_elem_of_here
      | reflexivity | discriminate | discriminate ].
  - destruct (Hcheck ["prog1:seq_1"; "prog3:done"])
      as (isEffective & -> & _ & _ & Hmissing & _).
    f_equal. apply (Hmissing "prog3:done");
      [ apply list_elem_of_further, list_elem_of_here |].
    intros status Hin. simpl in Hin.
    repeat (apply elem_of_cons in Hin as [->|Hin]; [discriminate|]).
    by apply elem_of_nil in Hin.
Defined.

(** The body of an error response is read before the error is raised:
    when reading it fails, that failure is the outcome and the
    [Request failed with <status>] error is not raised. *)
Lemma uploadPushEvents_outcome_counterexample :
  ok Sample.unreadableResponse = false ∧
  (uploadPushEvents (number := N) "key" "https://push.example" "device"
     Sample.asText Sample.asNothing Sample.wasPayload Sample.wasBody
     (Sample.server Sample.unreadableResponse) Sample.account []).2
  = Rejected (mkError "TypeError: Network request failed") ∧
  (uploadPushEvents (number := N) "key" "https://push.example" "device"
     Sample.asText Sample.asNothing Sample.wasPayload Sample.wasBody
     (Sample.server Sample.unreadableResponse) Sample.account []).2
  ≠ Rejected (mkError ("Request failed with " +:+
                       pretty (status Sample.unreadableResponse))).
Proof. split; [done|]. split; [done|]. vm_compute. discriminate. Qed.

(** C9 (amended): on a response that is not [ok], [uploadPushEvents] never
    returns normally; once the body text of the response has been read it
    fails with [Request failed with <status>] whatever the cleaner makes of
    that text, and when reading the body text fails or never completes,
    that is the outcome instead; on an [ok] response it returns without
    error. *)
Theorem uploadPushEvents_outcome {number binary Json : Type}
    (AIRBITZ_API_KEY pushServerUri device_id : string)
    (asBase64 : string → result binary)
    (asErrorResponse : string → result Json)
    (wasLoginUpdatePayload : LoginUpdatePayload number binary → Json)
    (wasPushRequestBody : PushRequestBody binary Json → string)
    (fetch : string → RequestInit → promise (Response Json))
    (account : EdgeAccount) (newPushEvents : list (NewPushEvent number binary))
    (loginId : binary) (response : Response Json) :
  asBase64 (rootLoginId account) = Ok loginId →
  fetch (pushServerUri +:+ "/v2/login/update") {|
      method := "POST";
      headers := [("Content-Type", "application/json")];
      request_body := wasPushRequestBody {|
        apiKey := AIRBITZ_API_KEY; deviceId := device_id;
        loginId := loginId;
        data := Some (wasLoginUpdatePayload {|
                        createEvents := newPushEvents;
                        removeEvents := [] |}) |}
    |} = Resolved response →
  (ok response = false →
     (uploadPushEvents AIRBITZ_API_KEY pushServerUri device_id asBase64
        asErrorResponse wasLoginUpdatePayload wasPushRequestBody fetch
        account newPushEvents).2 ≠ Resolved () ∧
     (∀ responseBody, text response = Resolved responseBody →
        uploadPushEvents AIRBITZ_API_KEY pushServerUri device_id asBase64
          asErrorResponse wasLoginUpdatePayload wasPushRequestBody fetch
          account newPushEvents
        = ([ {| responseBody := responseBody;
                responseData := asMaybe asErrorResponse responseBody |} ],
           Rejected (mkError ("Request failed with " +:+ pretty (status response))))) ∧
     (∀ e, text response = Rejected e →
        uploadPushEvents AIRBITZ_API_KEY pushServerUri device_id asBase64
          asErrorResponse wasLoginUpdatePayload wasPushRequestBody fetch
          account newPushEvents = ([], Rejected e)) ∧
     (text response = Pending →
        uploadPushEvents AIRBITZ_API_KEY pushServerUri device_id asBase64
          asErrorResponse wasLoginUpdatePayload wasPushRequestBody fetch
          account newPushEvents = ([], Pending))) ∧
  (ok response = true →
     uploadPushEvents AIRBITZ_API_KEY pushServerUri device_id asBase64
       asErrorResponse wasLoginUpdatePayload wasPushRequestBody fetch
       account newPushEvents = ([], Resolved ())).
Proof.
  intros Hlogin Hfetch. unfold uploadPushEvents. rewrite Hlogin, Hfetch.
  split; intros ->; simpl; [|done].
  split; [by destruct (text response)|].
  split; [by intros responseBody ->|].
  split; [by intros e -> | by intros ->].
Qed.

Lemma uploadPushEvents_outcome_witness :
  uploadPushEvents (number := N) "key" "https://push.example" "device"
    Sample.asText Sample.asNothing Sample.wasPayload Sample.wasBody
    (Sample.server Sample.errorResponse) Sample.account []
  = ([ {| responseBody := "<html>Internal Server Error</html>";
          responseData := None |} ],
     Rejected (mkError "Request failed with 500")) ∧
  uploadPushEvents (number := N) "key" "https://push.example" "device"
    Sample.asText Sample.asNothing Sample.wasPayload Sample.wasBody
    (Sample.server Sample.unreadableResponse) Sample.account []
  = ([], Rejected (mkError "TypeError: Network request failed")) ∧
  uploadPushEvents (number := N) "key" "https://push.example" "device"
    Sample.asText Sample.asNothing Sample.wasPayload Sample.wasBody
    (Sample.server Sample.okResponse) Sample.account []
  = ([], Resolved ()).
Proof.
  split; [|split].
  - destruct (uploadPushEvents_outcome (number := N) "key"
                "https://push.example" "device" Sample.asText Sample.asNothing
                Sample.wasPayload Sample.wasBody
                (Sample.server Sample.errorResponse) Sample.account []
                "bG9naW4=" Sample.errorResponse eq_refl eq_refl)
      as [Hfailure _].
    destruct (Hfailure eq_refl) as (_ & Herror & _).
    exact (Herror "<html>Internal Server Error</html>" eq_refl).
  - destruct (uploadPushEvents_outcome (number := N) "key"
                "https://push.example" "device" Sample.asText Sample.asNothing
                Sample.wasPayload Sample.wasBody
                (Sample.server Sample.unreadableResponse) Sample.account []
                "bG9naW4=" Sample.unreadableResponse eq_refl eq_refl)
      as [Hfailure _].
    destruct (Hfailure eq_refl) as (_ & _ & Hunread & _).
    exact (Hunread _ eq_refl).
  - destruct (uploadPushEvents_outcome (number := N) "key"
                "https://push.example" "device" Sample.asText Sample.asNothing
                Sample.wasPayload Sample.wasBody
                (Sample.server Sample.okResponse) Sample.account []
                "bG9naW4=" Sample.okResponse eq_refl eq_refl)
      as [_ Hsuccess].
    exact (Hsuccess eq_refl).
Defined.

(** ** Further properties of the trigger converter *)

Section Converter.
Context {number fields : Type}.
Implicit Types (effect leaf : ActionEffect number fields).

Lemma seqLeaf_not_seq effect leaf :
  seqLeaf effect = Some leaf → effect_type leaf ≠ "seq".
Proof.
  induction effect as [op|op child IH|children _|effect Hs Hp]
    using ActionEffect_nested_ind; simpl.
  - done.
  - exact IH.
  - by intros [= <-].
  - destruct effect; try done; by intros [= <-].
Qed.

Lemma actionEffectToPushTrigger_leaf account effect :
  actionEffectToPushTrigger account effect
  = match seqLeaf effect with
    | None => Rejected (mkError NULL_EFFECT_PUSH_TRIGGER)
    | Some leaf => actionEffectToPushTrigger account leaf
    end.
Proof.
  induction effect as [op|op child IH|children _|effect Hs Hp]
    using ActionEffect_nested_ind; simpl; try done.
  by destruct effect.
Qed.

(** On an effect that is not a [seq], the converter resolves to a trigger
    only for the three convertible tags, and then with the matching trigger
    tag. *)
Lemma actionEffectToPushTrigger_tag account leaf pushTrigger :
  effect_type leaf ≠ "seq" →
  actionEffectToPushTrigger account leaf = Resolved (Some pushTrigger) →
  triggerTagOf (effect_type leaf) = Some (trigger_type pushTrigger).
Proof.
  intros Hseq. destruct leaf; try done; simpl.
  - destruct (waitForCurrencyWallet _ _); [|done..]. simpl. by intros [= <-].
  - by intros [= <-].
  - destruct (waitForCurrencyWallet _ _); [|done..]. simpl. by intros [= <-].
Qed.

(** On an effect that is not a [seq], a rejection is the rejection of the
    wallet lookup. *)
Lemma actionEffectToPushTrigger_leaf_rejected account leaf e :
  effect_type leaf ≠ "seq" →
  actionEffectToPushTrigger account leaf = Rejected e →
  ∃ walletId, waitForCurrencyWallet account walletId = Rejected e.
Proof.
  intros Hseq. destruct leaf as [| |? walletId ? ? ?| |walletId ? ?| | | |];
    try done; simpl.
  - destruct (waitForCurrencyWallet _ walletId) eqn:Hwallet; [done| |done].
    intros [= <-]. by exists walletId.
  - destruct (waitForCurrencyWallet _ walletId) eqn:Hwallet; [done| |done].
    intros [= <-]. by exists walletId.
Qed.
End Converter.

(** X1: the converter looks through any chain of [seq] wrappers: it
    behaves on an effect as on the effect the chain ends in, and when it
    resolves to a trigger that innermost effect is an [address-balance],
    [price-level] or [tx-confs] and the trigger carries the matching tag. *)
Theorem actionEffectToPushTrigger_seqLeaf {number fields : Type}
    (account : EdgeAccount) (effect : ActionEffect number fields) :
  (∀ leaf, seqLeaf effect = Some leaf →
     effect_type leaf ≠ "seq" ∧
     actionEffectToPushTrigger account effect
     = actionEffectToPushTrigger account leaf) ∧
  (∀ pushTrigger,
     actionEffectToPushTrigger account effect = Resolved (Some pushTrigger) →
     ∃ leaf, seqLeaf effect = Some leaf ∧
             triggerTagOf (effect_type leaf) = Some (trigger_type pushTrigger)).
Proof.
  split.
  - intros leaf Hleaf. split; [by eapply seqLeaf_not_seq|].
    by rewrite actionEffectToPushTrigger_leaf, Hleaf.
  - intros pushTrigger. rewrite actionEffectToPushTrigger_leaf.
    destruct (seqLeaf effect) as [leaf|] eqn:Hleaf; [|done].
    intros Hconv. exists leaf. split; [done|].
    eapply actionEffectToPushTrigger_tag; [by eapply seqLeaf_not_seq | done].
Qed.

Lemma actionEffectToPushTrigger_seqLeaf_witness :
  actionEffectToPushTrigger Sample.account (effect Sample.waitingStep)
  = actionEffectToPushTrigger Sample.account Sample.txConfs ∧
  ∃ leaf, seqLeaf (effect Sample.waitingStep) = Some leaf ∧
          triggerTagOf (effect_type leaf) = Some "tx-confirm".
Proof.
  destruct (actionEffectToPushTrigger_seqLeaf Sample.account
              (effect Sample.waitingStep)) as [Hleaf Htag].
  split.
  - apply (Hleaf Sample.txConfs). reflexivity.
  - apply (Htag (TxConfirmTrigger "bitcoin" 1%N "t1")). reflexivity.
Defined.

(** X2: the converter fails with the null-effect error exactly when the
    chain of [seq] wrappers ends in a null child; every other rejection is
    a rejection of the wallet lookup, so with wallet lookups that do not
    reject it is the only one. *)
Theorem actionEffectToPushTrigger_rejected {number fields : Type}
    (account : EdgeAccount) (effect : ActionEffect number fields) :
  (seqLeaf effect = None →
     actionEffectToPushTrigger account effect
     = Rejected (mkError NULL_EFFECT_PUSH_TRIGGER)) ∧
  (∀ e, actionEffectToPushTrigger account effect = Rejected e →
     (seqLeaf effect = None ∧ e = mkError NULL_EFFECT_PUSH_TRIGGER) ∨
     (∃ walletId, waitForCurrencyWallet account walletId = Rejected e)) ∧
  ((∀ walletId e, waitForCurrencyWallet account walletId ≠ Rejected e) →
     ∀ e, actionEffectToPushTrigger account effect = Rejected e →
       seqLeaf effect = None ∧ e = mkError NULL_EFFECT_PUSH_TRIGGER).
Proof.
  assert (∀ e, actionEffectToPushTrigger account effect = Rejected e →
            (seqLeaf effect = None ∧ e = mkError NULL_EFFECT_PUSH_TRIGGER) ∨
            (∃ walletId, waitForCurrencyWallet account walletId = Rejected e))
    as Hrejected.
  { intros e. rewrite actionEffectToPushTrigger_leaf.
    destruct (seqLeaf effect) as [leaf|] eqn:Hleaf.
    - intros Hconv. right.
      eapply actionEffectToPushTrigger_leaf_rejected; [|done].
      by eapply seqLeaf_not_seq.
    - intros [= <-]. by left. }
  split; [|split; [done|]].
  - intros Hnull. by rewrite actionEffectToPushTrigger_leaf, Hnull.
  - intros Hwallets e Hconv.
    destruct (Hrejected e Hconv) as [?|[walletId Hwallet]]; [done|].
    by apply Hwallets in Hwallet.
Qed.

Lemma actionEffectToPushTrigger_rejected_witness :
  actionEffectToPushTrigger Sample.account (effect Sample.endingStepNull)
  = Rejected (mkError NULL_EFFECT_PUSH_TRIGGER) ∧
  ∀ e, actionEffectToPushTrigger Sample.account (effect Sample.endingStepNull)
       = Rejected e →
       seqLeaf (effect Sample.endingStepNull) = None ∧
       e = mkError NULL_EFFECT_PUSH_TRIGGER.
Proof.
  destruct (actionEffectToPushTrigger_rejected Sample.account
              (effect Sample.endingStepNull)) as (Hnull & _ & Honly).
  split; [apply Hnull; reflexivity|].
  apply Honly. intros walletId e. simpl. case_decide; discriminate.
Defined.

(** ** Further properties of the call-stack identifier builder *)

Section Identifiers.
Context {number fields : Type}.
Implicit Types (effect : ActionEffect number fields)
               (children : list (option (ActionEffect number fields))).
#[local] Arguments String.append !_ _ /.

Lemma Array_map_total {A B} (f : A → result B) (l : list A) :
  Forall (fun x => ∃ y, f x = Ok y) l → ∃ ys, Array_map f l = Ok ys.
Proof.
  induction 1 as [|x l [y Hy] _ [ys IH]]; [by exists []|].
  exists (y :: ys). simpl. by rewrite Hy, IH.
Qed.

Lemma Array_map_app {A B} (f : A → result B) (l1 l2 : list A) :
  Array_map f (l1 ++ l2)
  = ys1 ← Array_map f l1; ys2 ← Array_map f l2; Ok (ys1 ++ ys2).
Proof.
  induction l1 as [|x l1 IH]; simpl.
  - by destruct (Array_map f l2).
  - destruct (f x); [|done]. rewrite IH.
    destruct (Array_map f l1); [|done]. simpl.
    by destruct (Array_map f l2).
Qed.

Lemma parsComplete_Ok effect :
  parsComplete effect = true → ∃ id, getCallStackId effect = Ok id.
Proof.
  induction effect as [op|op child _|children IH|effect Hs Hp]
    using ActionEffect_nested_ind; intros Hcomplete.
  - by eexists.
  - by eexists.
  - simpl in Hcomplete. rewrite forallb_forall in Hcomplete.
    destruct (Array_map_total childCallStackId children) as [ids Hids].
    + rewrite Forall_forall in IH |- *. intros [child|] Hin.
      * apply (IH (Some child) Hin). apply (Hcomplete (Some child)).
        by apply list_elem_of_In.
      * apply list_elem_of_In, Hcomplete in Hin. done.
    + rewrite getCallStackId_par, Hids. by eexists.
  - destruct effect; try done; by eexists.
Qed.

Lemma parsComplete_Throw effect :
  parsComplete effect = false →
  getCallStackId effect = Throw (mkError NULL_EFFECT_CALL_STACK_ID).
Proof.
  induction effect as [op|op child _|children IH|effect Hs Hp]
    using ActionEffect_nested_ind; intros Hnull.
  - done.
  - done.
  - simpl in Hnull. apply not_true_iff_false in Hnull.
    rewrite forallb_forall in Hnull.
    assert (∃ c, c ∈ children ∧
                 childCallStackId c = Throw (mkError NULL_EFFECT_CALL_STACK_ID))
      as (c & Hin & Hc).
    { induction IH as [|c children Hc _ IHchildren].
      - exfalso. apply Hnull. by intros ? [].
      - destruct c as [child|].
        + destruct (parsComplete child) eqn:Hchild.
          * destruct IHchildren as (c' & Hin & Hc').
            { intros Hall. apply Hnull. intros c' [<-|Hin]; [done | by apply Hall]. }
            exists c'. split; [by right | done].
          * exists (Some child). split; [by left | by apply Hc].
        + exists None. split; [by left | done]. }
    destruct (Array_map_throws childCallStackId children c _ Hin Hc) as [e He].
    assert (getCallStackId (ParEffect children) = Throw e) as Hpar.
    { rewrite getCallStackId_par. by rewrite He. }
    by rewrite Hpar, (getCallStackId_Throw _ _ Hpar).
  - by destruct effect.
Qed.

(** The form of the identifier, by variant. *)
Lemma getCallStackId_form effect id :
  getCallStackId effect = Ok id →
  match effect with
  | SeqEffect opIndex _ => id = "seq_" +:+ pretty opIndex
  | ParEffect _ => ∃ joined, id = "par_" +:+ joined
  | _ => id = effect_type effect
  end.
Proof.
  destruct effect as [op c|children| | | | | | |]; try by intros [= <-].
  rewrite getCallStackId_par.
  destruct (Array_map _ children) as [ids|e']; [|done].
  intros [= <-]. by eexists.
Qed.

Lemma Array_join_cons sep x y (l : list string) :
  Array_join sep (x :: y :: l) = x +:+ sep +:+ Array_join sep (y :: l).
Proof. done. Qed.

Lemma string_app_assoc (s1 s2 s3 : string) :
  (s1 +:+ s2) +:+ s3 = s1 +:+ s2 +:+ s3.
Proof. induction s1 as [|a s1 IH]; simpl; [done | by rewrite IH]. Qed.

(** Joining a joined prefix with the rest is joining the whole. *)
Lemma Array_join_nested sep (xs ys : list string) :
  xs ≠ [] → Array_join sep (Array_join sep xs :: ys) = Array_join sep (xs ++ ys).
Proof.
  intros Hxs. induction xs as [|x [|x' xs] IH]; [done| |].
  - done.
  - specialize (IH ltac:(done)).
    change ((x :: x' :: xs) ++ ys) with (x :: x' :: (xs ++ ys)).
    rewrite (Array_join_cons sep x x' (xs ++ ys)).
    change (x' :: xs ++ ys) with ((x' :: xs) ++ ys). rewrite <- IH.
    rewrite (Array_join_cons sep x x' xs).
    destruct ys as [|y ys]; [done|].
    rewrite !Array_join_cons. by rewrite !string_app_assoc.
Qed.
End Identifiers.

(** X3: [getCallStackId] returns an identifier exactly when no [par]
    reachable through [par] children has a null child, and throws the
    null-effect error otherwise; the child of a [seq] is never inspected. *)
Theorem getCallStackId_parsComplete {number fields : Type}
    (effect : ActionEffect number fields) :
  (parsComplete effect = true ↔ ∃ id, getCallStackId effect = Ok id) ∧
  (parsComplete effect = false ↔
     getCallStackId effect = Throw (mkError NULL_EFFECT_CALL_STACK_ID)) ∧
  (∀ opIndex childEffect,
     effect = SeqEffect opIndex childEffect → parsComplete effect = true).
Proof.
  split; [|split].
  - split; [apply parsComplete_Ok|]. intros [id Hid].
    destruct (parsComplete effect) eqn:Hcomplete; [done|].
    apply parsComplete_Throw in Hcomplete. congruence.
  - split; [apply parsComplete_Throw|]. intros Hthrow.
    destruct (parsComplete effect) eqn:Hcomplete; [|done].
    apply parsComplete_Ok in Hcomplete as [id Hid]. congruence.
  - by intros opIndex childEffect ->.
Qed.

Lemma getCallStackId_parsComplete_witness :
  (∃ id, getCallStackId (ParEffect [Some (effect Sample.endingStepNull);
                                    Some (ParEffect [Some Sample.done])])
         = Ok id) ∧
  getCallStackId (ParEffect [Some Sample.done;
                             Some (effect Sample.partialStep)])
  = Throw (mkError NULL_EFFECT_CALL_STACK_ID).
Proof.
  split.
  - apply getCallStackId_parsComplete. reflexivity.
  - apply getCallStackId_parsComplete. reflexivity.
Defined.

(** X4: an identifier determines the tag of its effect, and for a [seq]
    its [opIndex]: effects with different tags, or [seq] effects with
    different indices, never share an identifier. *)
Theorem getCallStackId_tag {number fields : Type}
    (A B : ActionEffect number fields) (id : string) :
  getCallStackId A = Ok id → getCallStackId B = Ok id →
  effect_type A = effect_type B ∧
  (∀ opA childA opB childB,
     A = SeqEffect opA childA → B = SeqEffect opB childB → opA = opB).
Proof.
  intros HA%getCallStackId_form HB%getCallStackId_form.
  destruct A as [opA cA|csA| | | | | | |], B as [opB cB|csB| | | | | | |];
    repeat match goal with H : ∃ _, _ |- _ => destruct H as [? H] end;
    simpl in HA, HB; subst; try discriminate; (split; [done|]);
    try (intros ???? [=]; fail).
  intros ???? [= <- <-] [= <- <-].
  apply String.app_inj in HB. by apply (inj pretty) in HB.
Qed.

Lemma getCallStackId_tag_witness :
  effect_type (effect Sample.endingStep) = effect_type (effect Sample.endingStepNull).
Proof.
  apply (getCallStackId_tag (effect Sample.endingStep)
           (effect Sample.endingStepNull) "seq_2"); reflexivity.
Defined.

(** X5: a [par] nested as the first child of a [par] is invisible in the
    identifier: [par [par xs, ys...]] and [par [par (xs ++ ys)]] have the
    same identifier (or fail alike) whenever [xs] is not empty. *)
Theorem getCallStackId_par_flatten {number fields : Type}
    (xs ys : list (option (ActionEffect number fields))) :
  xs ≠ [] →
  getCallStackId (ParEffect (Some (ParEffect xs) :: ys))
  = getCallStackId (ParEffect [Some (ParEffect (xs ++ ys))]).
Proof.
  intros Hxs.
  rewrite (getCallStackId_par (Some (ParEffect xs) :: ys)).
  rewrite (getCallStackId_par [Some (ParEffect (xs ++ ys))]).
  change (Array_map childCallStackId (Some (ParEffect xs) :: ys))
    with (y ← getCallStackId (ParEffect xs);
          rest ← Array_map childCallStackId ys; Ok (y :: rest)).
  change (Array_map childCallStackId [Some (ParEffect (xs ++ ys))])
    with (y ← getCallStackId (ParEffect (xs ++ ys)); Ok [y]).
  rewrite !getCallStackId_par, Array_map_app.
  destruct (Array_map childCallStackId xs) as [xids|e] eqn:Hxids; [|done].
  destruct (Array_map childCallStackId ys) as [yids|e]; [|done].
  unfold mbind, result_bind. do 2 f_equal.
  change (Array_join "_" ["par_" +:+ Array_join "_" (xids ++ yids)])
    with ("par_" +:+ Array_join "_" (xids ++ yids)).
  assert (xids ≠ []) as Hne.
  { apply Array_map_Ok in Hxids. by destruct Hxids. }
  destruct yids as [|y yids].
  - by rewrite app_nil_r.
  - rewrite <- (Array_join_nested "_" xids (y :: yids) Hne).
    rewrite !(Array_join_cons "_" _ y yids).
    by rewrite !string_app_assoc.
Qed.

Lemma getCallStackId_par_flatten_witness :
  getCallStackId (ParEffect [Some (ParEffect [Some Sample.done]);
                             Some Sample.noop; Some Sample.txConfs])
  = getCallStackId (ParEffect [Some (ParEffect [Some Sample.done;
                                                Some Sample.noop;
                                                Some Sample.txConfs])]).
Proof.
  apply (getCallStackId_par_flatten [Some Sample.done]
           [Some Sample.noop; Some Sample.txConfs]).
  discriminate.
Defined.

(** ** Event identifiers *)

Section EventIds.
#[local] Arguments String.append !_ _ /.

Lemma occurs_join c sep (ids : list string) :
  occurs c sep = false → Forall (fun id => occurs c id = false) ids →
  occurs c (Array_join sep ids) = false.
Proof.
  intros Hsep Hids. induction Hids as [|id ids Hid Hids IH]; [done|].
  destruct ids as [|id' ids]; [done|].
  rewrite Array_join_cons, !occurs_app, Hid, Hsep. exact IH.
Qed.

Lemma pretty_N_go_free c x s :
  (∀ d, pretty_N_char d ≠ c) →
  occurs c s = false → occurs c (pretty_N_go x s) = false.
Proof.
  intros Hdigit. revert s. induction (N.lt_wf_0 x) as [x _ IH]; intros s Hs.
  destruct (N.eq_dec x 0) as [->|Hx]; [done|].
  rewrite pretty_N_go_step by lia.
  apply IH; [apply N.div_lt; lia|].
  simpl. case_decide as Hd; [by apply Hdigit in Hd | done].
Qed.

Lemma pretty_N_colon_free (n : N) : occurs ":" (pretty n) = false.
Proof.
  unfold pretty, pretty_N. case_decide; [done|].
  apply pretty_N_go_free; [|done].
  intros d. unfold pretty_N_char. by repeat case_match.
Qed.

(** No identifier contains a colon. *)
Lemma getCallStackId_colon_free {number fields : Type}
    (effect : ActionEffect number fields) (id : string) :
  getCallStackId effect = Ok id → occurs ":" id = false.
Proof.
  revert id. induction effect as [op|op child _|children IH|effect Hs Hp]
    using ActionEffect_nested_ind; intros id.
  - intros [= <-]. simpl. apply pretty_N_colon_free.
  - intros [= <-]. simpl. apply pretty_N_colon_free.
  - rewrite getCallStackId_par.
    destruct (Array_map childCallStackId children) as [ids|e] eqn:Hids; [|done].
    intros [= <-]. simpl.
    apply occurs_join; [done|]. apply Array_map_Ok in Hids.
    induction Hids as [|c id' children ids Hc _ IHids]; [done|].
    apply Forall_cons in IH as [Hchild IH].
    constructor; [|by apply IHids].
    destruct c as [child|]; [by apply Hchild | done].
  - destruct effect; try done; by intros [= <-].
Qed.

(** A string is cut in one way only at a character its tail is free of. *)
Lemma split_at_last c (p1 p2 s1 s2 : string) :
  occurs c s1 = false → occurs c s2 = false →
  p1 +:+ String c s1 = p2 +:+ String c s2 → p1 = p2 ∧ s1 = s2.
Proof.
  intros Hs1 Hs2. revert p2.
  induction p1 as [|a p1 IH]; intros [|b p2]; simpl.
  - by intros [= ->].
  - intros [= <- ->]. rewrite occurs_app in Hs1. simpl in Hs1.
    rewrite decide_True in Hs1 by done. by rewrite orb_true_r in Hs1.
  - intros [= -> <-]. rewrite occurs_app in Hs2. simpl in Hs2.
    rewrite decide_True in Hs2 by done. by rewrite orb_true_r in Hs2.
  - intros [= -> Heq]. destruct (IH _ Heq) as [-> ->]. done.
Qed.
End EventIds.

Section Batches.
Context {number fields binary : Type}.
Context (pushTitle pushBody : string) (asHex : string → result binary).
Context (account : EdgeAccount) (program : ActionProgram).
Context (initEffect : ActionEffect number fields).
Context (dryrunOutputs : list (ExecutionOutput number fields)).

(** Each event of a resolved batch is what the callback resolved to on the
    output at the same index. *)
Lemma prepareNewPushEvents_step events i event :
  prepareNewPushEvents pushTitle pushBody asHex account program initEffect dryrunOutputs
    = Resolved events →
  events !! i = Some event →
  ∃ output,
    dryrunOutputs !! i = Some output ∧
    pushEventOf asHex account (programId program)
      {| title := pushTitle; body := pushBody |} initEffect dryrunOutputs i output
    = Resolved event.
Proof.
  unfold prepareNewPushEvents. intros Hall Hevent.
  pose proof (Promise_all_lookup _ _ _ _ Hall Hevent) as Hstep.
  rewrite list_lookup_imap in Hstep.
  destruct (dryrunOutputs !! i) as [output|]; [|done].
  injection Hstep as Hstep. by exists output.
Qed.

(** [Promise.all] resolves when every member does. *)
Lemma Promise_all_total {A} (ps : list (promise A)) :
  Forall (fun p => ∃ a, p = Resolved a) ps → ∃ l, Promise_all ps = Resolved l.
Proof.
  induction 1 as [|p ps [a ->] _ [l IH]]; [by exists []|].
  exists (a :: l). simpl. by rewrite IH.
Qed.
End Batches.

(** X6: an event id determines its program id and its call-stack id.
    Events of resolved batches with the same id come from programs with the
    same [programId] (whatever characters it contains) and from outputs
    whose effects have the same call-stack identifier. *)
Theorem prepareNewPushEvents_eventId_split {number fields binary : Type}
    (title body : string) (asHex : string → result binary)
    (account : EdgeAccount) (program1 program2 : ActionProgram)
    (initEffect1 initEffect2 : ActionEffect number fields)
    (outputs1 outputs2 : list (ExecutionOutput number fields))
    (events1 events2 : list (NewPushEvent number binary))
    (i j : nat) (event1 event2 : NewPushEvent number binary)
    (output1 output2 : ExecutionOutput number fields) :
  prepareNewPushEvents title body asHex account program1 initEffect1 outputs1
    = Resolved events1 →
  prepareNewPushEvents title body asHex account program2 initEffect2 outputs2
    = Resolved events2 →
  events1 !! i = Some event1 → outputs1 !! i = Some output1 →
  events2 !! j = Some event2 → outputs2 !! j = Some output2 →
  eventId event1 = eventId event2 →
  programId program1 = programId program2 ∧
  getCallStackId (effect output1) = getCallStackId (effect output2).
Proof.
  intros Hall1 Hall2 Hevent1 Houtput1 Hevent2 Houtput2 Hid.
  destruct (prepareNewPushEvents_step _ _ _ _ _ _ _ _ _ _ Hall1 Hevent1)
    as (? & ? & Hstep1).
  destruct (prepareNewPushEvents_step _ _ _ _ _ _ _ _ _ _ Hall2 Hevent2)
    as (? & ? & Hstep2).
  simplify_eq.
  apply pushEventOf_resolved in Hstep1 as (? & id1 & ? & ? & _ & Hid1 & _ & _ & ->).
  apply pushEventOf_resolved in Hstep2 as (? & id2 & ? & ? & _ & Hid2 & _ & _ & ->).
  simpl in Hid. rewrite Hid1, Hid2.
  apply split_at_last in Hid as [-> ->]; eauto using getCallStackId_colon_free.
Qed.

Lemma prepareNewPushEvents_eventId_split_witness :
  getCallStackId (effect Sample.endingStep)
  = getCallStackId (effect Sample.endingStepNull).
Proof.
  refine (proj2 (prepareNewPushEvents_eventId_split "Title" "Body"
    Sample.asText Sample.account Sample.program Sample.program
    Sample.txConfs Sample.priceLevel [Sample.endingStep] [Sample.endingStepNull]
    _ _ 0 0 _ _ Sample.endingStep Sample.endingStepNull
    eq_refl eq_refl eq_refl eq_refl eq_refl eq_refl eq_refl)).
Defined.

(** ** Further properties of the push event assembler *)

Section Steps.
Context {number fields binary : Type}.
Context (asHex : string → result binary) (account : EdgeAccount).

Lemma broadcastTxOf_resolved executionTx broadcastTx :
  broadcastTxOf asHex account executionTx = Resolved broadcastTx →
  ∃ wallet raw,
    waitForCurrencyWallet account (walletId executionTx) = Resolved wallet ∧
    asHex (signedTx (tx executionTx)) = Ok raw ∧
    broadcastTx = {|
      tx_pluginId := pluginId (config_currencyInfo (currencyConfig wallet));
      rawTx := raw
    |}.
Proof.
  unfold broadcastTxOf.
  destruct (waitForCurrencyWallet _ _) as [wallet| |]; [|done..]. simpl.
  destruct (asHex _) as [raw|]; [|done]. simpl.
  intros [= <-]. by exists wallet, raw.
Qed.

(** The trigger source of a step does not depend on the outputs from that
    step on. *)
Lemma prevEffectOf_app (initEffect : ActionEffect number fields)
    (outputs rest1 rest2 : list (ExecutionOutput number fields)) (index : nat) :
  index ≤ length outputs →
  prevEffectOf initEffect (outputs ++ rest1) index
  = prevEffectOf initEffect (outputs ++ rest2) index.
Proof.
  intros Hle. unfold prevEffectOf. case_decide; [|done].
  by rewrite !lookup_app_l by lia.
Qed.

Lemma effectCanBeATrigger_true (effect : ActionEffect number fields) pushTrigger :
  actionEffectToPushTrigger account effect = Resolved (Some pushTrigger) →
  effectCanBeATrigger account effect = Resolved true.
Proof. unfold effectCanBeATrigger. by intros ->. Qed.
End Steps.

(** X7: in a resolved batch, the broadcast transactions of an event are
    those of the output at the same index, in the same order: each carries
    the plugin id of the currency config of the wallet its [walletId]
    resolves to, and the cleaned signed transaction. *)
Theorem prepareNewPushEvents_broadcastTxs {number fields binary : Type}
    (title body : string) (asHex : string → result binary)
    (account : EdgeAccount) (program : ActionProgram)
    (initEffect : ActionEffect number fields)
    (dryrunOutputs : list (ExecutionOutput number fields))
    (events : list (NewPushEvent number binary))
    (i : nat) (event : NewPushEvent number binary)
    (output : ExecutionOutput number fields) :
  prepareNewPushEvents title body asHex account program initEffect dryrunOutputs
    = Resolved events →
  events !! i = Some event → dryrunOutputs !! i = Some output →
  length (event_broadcastTxs event) = length (broadcastTxs output) ∧
  ∀ k executionTx, broadcastTxs output !! k = Some executionTx →
    ∃ wallet raw,
      waitForCurrencyWallet account (walletId executionTx) = Resolved wallet ∧
      asHex (signedTx (tx executionTx)) = Ok raw ∧
      event_broadcastTxs event !! k = Some {|
        tx_pluginId := pluginId (config_currencyInfo (currencyConfig wallet));
        rawTx := raw
      |}.
Proof.
  intros Hall Hevent Houtput.
  destruct (prepareNewPushEvents_step _ _ _ _ _ _ _ _ _ _ Hall Hevent)
    as (output' & Houtput' & Hstep).
  simplify_eq.
  apply pushEventOf_resolved in Hstep
    as (? & ? & broadcast & ? & _ & _ & Hbroadcast & _ & ->).
  simpl. apply Promise_all_resolved in Hbroadcast. split.
  - apply (f_equal length) in Hbroadcast.
    rewrite length_map, length_fmap in Hbroadcast. done.
  - intros k executionTx Hk.
    apply (f_equal (fun l => l !! k)) in Hbroadcast.
    rewrite list_lookup_fmap in Hbroadcast.
    change (map (broadcastTxOf asHex account) (broadcastTxs output))
      with (broadcastTxOf asHex account <$> broadcastTxs output) in Hbroadcast.
    rewrite list_lookup_fmap, Hk in Hbroadcast. simpl in Hbroadcast.
    destruct (broadcast !! k) as [broadcastTx|]; [|done].
    injection Hbroadcast as Hbroadcast.
    apply broadcastTxOf_resolved in Hbroadcast as (wallet & raw & ? & ? & ->).
    by exists wallet, raw.
Qed.

Lemma prepareNewPushEvents_broadcastTxs_witness :
  ∃ event,
    prepareNewPushEvents "Title" "Body" Sample.asText Sample.account
      Sample.program Sample.txConfs [Sample.lastStep] = Resolved [event] ∧
    ∃ wallet raw,
      waitForCurrencyWallet Sample.account "w1" = Resolved wallet ∧
      Sample.asText "c0ffee" = Ok raw ∧
      event_broadcastTxs event !! 0 = Some {|
        tx_pluginId := pluginId (config_currencyInfo (currencyConfig wallet));
        rawTx := raw
      |}.
Proof.
  eexists. split; [reflexivity|].
  destruct (prepareNewPushEvents_broadcastTxs "Title" "Body" Sample.asText
              Sample.account Sample.program Sample.txConfs [Sample.lastStep]
              _ 0 _ Sample.lastStep eq_refl eq_refl eq_refl) as [_ Htxs].
  exact (Htxs 0 _ eq_refl).
Defined.

(** X8: the assembly resolves exactly when every step can be built: the
    identifier of its own effect, each of its broadcast transactions, and a
    trigger converted from its trigger source. *)
Theorem prepareNewPushEvents_resolves {number fields binary : Type}
    (title body : string) (asHex : string → result binary)
    (account : EdgeAccount) (program : ActionProgram)
    (initEffect : ActionEffect number fields)
    (dryrunOutputs : list (ExecutionOutput number fields)) :
  (∃ events,
     prepareNewPushEvents title body asHex account program initEffect
       dryrunOutputs = Resolved events) ↔
  (∀ i output, dryrunOutputs !! i = Some output →
     (∃ callStackId, getCallStackId (effect output) = Ok callStackId) ∧
     Forall (fun executionTx =>
               ∃ broadcastTx, broadcastTxOf asHex account executionTx
                              = Resolved broadcastTx) (broadcastTxs output) ∧
     ∃ source pushTrigger,
       triggerSource initEffect dryrunOutputs i source ∧
       actionEffectToPushTrigger account source = Resolved (Some pushTrigger)).
Proof.
  split.
  - intros [events Hall] i output Houtput.
    pose proof (Promise_all_length _ _ Hall) as Hlength.
    rewrite length_imap in Hlength.
    destruct (lookup_lt_is_Some_2 events i) as [event Hevent].
    { rewrite Hlength. by eapply lookup_lt_Some. }
    destruct (prepareNewPushEvents_step _ _ _ _ _ _ _ _ _ _ Hall Hevent)
      as (output' & Houtput' & Hstep).
    simplify_eq.
    apply pushEventOf_resolved in Hstep
      as (source & id & broadcast & pushTrigger & Hsource & Hid & Hbroadcast
          & Hconv & _).
    split; [by exists id|]. split.
    + apply Promise_all_resolved in Hbroadcast. apply Forall_forall.
      intros executionTx Hin.
      assert (broadcastTxOf asHex account executionTx
                ∈ map (broadcastTxOf asHex account) (broadcastTxs output)) as Hmem.
      { by apply (list_elem_of_fmap_2 (broadcastTxOf asHex account)). }
      rewrite Hbroadcast in Hmem.
      apply list_elem_of_fmap in Hmem as (broadcastTx & -> & _). by eexists.
    + exists source, pushTrigger. split; [by apply prevEffectOf_source | done].
  - intros Hsteps. unfold prepareNewPushEvents. apply Promise_all_total.
    apply Forall_forall. intros p Hp.
    apply elem_of_lookup_imap_1 in Hp as (i & output & -> & Houtput).
    destruct (Hsteps i output Houtput)
      as (Hid & Htxs & source & pushTrigger & Hsource & Hconv).
    exact (pushEventOf_settled asHex account _ _ initEffect dryrunOutputs
             i output source (Some pushTrigger) Hsource Hid Htxs Hconv).
Qed.

Lemma prepareNewPushEvents_resolves_witness :
  (∃ callStackId, getCallStackId (effect Sample.lastStep) = Ok callStackId) ∧
  ∃ source pushTrigger,
    triggerSource Sample.txConfs [Sample.waitingStep; Sample.lastStep] 1 source ∧
    actionEffectToPushTrigger Sample.account source = Resolved (Some pushTrigger).
Proof.
  destruct (proj1 (prepareNewPushEvents_resolves "Title" "Body" Sample.asText
                     Sample.account Sample.program Sample.txConfs
                     [Sample.waitingStep; Sample.lastStep])
                  (ex_intro _ _ eq_refl) 1 Sample.lastStep eq_refl)
    as (Hid & _ & Hsource).
  split; [exact Hid | exact Hsource].
Defined.

(** X9: the effect of the last output is used for its identifier only:
    replacing the last output by one with the same transactions and an
    effect with the same identifier leaves the outcome unchanged, whether
    or not that effect could be converted to a trigger. *)
Theorem prepareNewPushEvents_last_effect {number fields binary : Type}
    (title body : string) (asHex : string → result binary)
    (account : EdgeAccount) (program : ActionProgram)
    (initEffect : ActionEffect number fields)
    (outputs : list (ExecutionOutput number fields))
    (last1 last2 : ExecutionOutput number fields) :
  broadcastTxs last1 = broadcastTxs last2 →
  getCallStackId (effect last1) = getCallStackId (effect last2) →
  prepareNewPushEvents title body asHex account program initEffect
    (outputs ++ [last1])
  = prepareNewPushEvents title body asHex account program initEffect
    (outputs ++ [last2]).
Proof.
  intros Htxs Hid. unfold prepareNewPushEvents. f_equal.
  rewrite !imap_app. f_equal.
  - apply imap_ext. intros i output Houtput. unfold pushEventOf.
    rewrite (prevEffectOf_app initEffect outputs [last1] [last2]);
      [|apply lookup_lt_Some in Houtput; lia].
    by rewrite !length_app.
  - simpl. f_equal. unfold pushEventOf.
    rewrite (prevEffectOf_app initEffect outputs [last1] [last2]) by lia.
    by rewrite Htxs, Hid, !length_app.
Qed.

Lemma prepareNewPushEvents_last_effect_witness :
  prepareNewPushEvents "Title" "Body" Sample.asText Sample.account
    Sample.program Sample.txConfs [Sample.waitingStep; Sample.endingStep]
  = prepareNewPushEvents "Title" "Body" Sample.asText Sample.account
    Sample.program Sample.txConfs [Sample.waitingStep; Sample.endingStepNull].
Proof.
  apply (prepareNewPushEvents_last_effect "Title" "Body" Sample.asText
           Sample.account Sample.program Sample.txConfs [Sample.waitingStep]
           Sample.endingStep Sample.endingStepNull); reflexivity.
Defined.

(** X10: [effectCanBeATrigger] is a sound pre-check for the assembly: when
    a batch over a non-empty output list resolves, the check answers true
    for [initEffect] and for the effect of every output but the last; so a
    false answer for one of them rules out a resolved batch. *)
Theorem effectCanBeATrigger_precheck {number fields binary : Type}
    (title body : string) (asHex : string → result binary)
    (account : EdgeAccount) (program : ActionProgram)
    (initEffect : ActionEffect number fields)
    (dryrunOutputs : list (ExecutionOutput number fields))
    (events : list (NewPushEvent number binary)) :
  dryrunOutputs ≠ [] →
  prepareNewPushEvents title body asHex account program initEffect dryrunOutputs
    = Resolved events →
  effectCanBeATrigger account initEffect = Resolved true ∧
  ∀ i output, dryrunOutputs !! i = Some output → S i < length dryrunOutputs →
    effectCanBeATrigger account (effect output) = Resolved true.
Proof.
  intros Hne Hall.
  pose proof (Promise_all_length _ _ Hall) as Hlength.
  rewrite length_imap in Hlength.
  assert (∀ i source, i < length dryrunOutputs →
            triggerSource initEffect dryrunOutputs i source →
            effectCanBeATrigger account source = Resolved true) as Hsources.
  { intros i source Hi Hsource.
    destruct (lookup_lt_is_Some_2 events i) as [event Hevent]; [lia|].
    destruct (prepareNewPushEvents_step _ _ _ _ _ _ _ _ _ _ Hall Hevent)
      as (output & _ & Hstep).
    apply pushEventOf_resolved in Hstep
      as (source' & ? & ? & pushTrigger & Hsource' & _ & _ & Hconv & _).
    apply triggerSource_prevEffectOf in Hsource.
    assert (source' = source) as -> by congruence.
    by eapply effectCanBeATrigger_true. }
  split.
  - apply (Hsources 0); [destruct dryrunOutputs; [done | simpl; lia] | by left].
  - intros i output Houtput Hnext. apply (Hsources (S i)); [done|].
    right. exists output. split; [lia|]. split; [|done].
    by replace (S i - 1) with i by lia.
Qed.

Lemma effectCanBeATrigger_precheck_witness :
  effectCanBeATrigger Sample.account Sample.txConfs = Resolved true ∧
  effectCanBeATrigger Sample.account (effect Sample.waitingStep) = Resolved true.
Proof.
  edestruct (effectCanBeATrigger_precheck "Title" "Body" Sample.asText
               Sample.account Sample.program Sample.txConfs
               [Sample.waitingStep; Sample.lastStep]) as [Hinit Hsteps].
  - discriminate.
  - reflexivity.
  - split; [exact Hinit|].
    apply (Hsteps 0 Sample.waitingStep); [reflexivity | simpl; lia].
Defined.

(** ** Further properties of the push server client *)

Section Client.
Context {binary Json : Type}.
Context (AIRBITZ_API_KEY pushServerUri device_id : string).
Context (asBase64 : string → result binary).
Context (asLoginPayload : Json → result LoginPayload).
Context (wasPushRequestBody : PushRequestBody binary Json → string).
Context (fetch : string → RequestInit → promise (Response Json)).
Context (account : EdgeAccount).



End Client.

(** X11: [checkPushEvents] resolves only after the whole exchange went
    well: the login id was cleaned, the [POST] to [/v2/login] with the
    envelope [{apiKey, deviceId, loginId}] and no data was answered with an
    [ok] response, and its JSON body cleaned to a login payload; the answer
    is then read off that payload. *)
Theorem checkPushEvents_resolved {binary Json : Type}
    (AIRBITZ_API_KEY pushServerUri device_id : string)
    (asBase64 : string → result binary)
    (asLoginPayload : Json → result LoginPayload)
    (wasPushRequestBody : PushRequestBody binary Json → string)
    (fetch : string → RequestInit → promise (Response Json))
    (account : EdgeAccount) (eventIds : list string) (isEffective : bool) :
  checkPushEvents AIRBITZ_API_KEY pushServerUri device_id asBase64
    asLoginPayload wasPushRequestBody fetch account eventIds
  = Resolved isEffective →
  ∃ loginId response data loginPayload,
    asBase64 (rootLoginId account) = Ok loginId ∧
    fetch (pushServerUri +:+ "/v2/login") {|
        method := "POST";
        headers := [("Content-Type", "application/json")];
        request_body := wasPushRequestBody {|
          apiKey := AIRBITZ_API_KEY; deviceId := device_id;
          loginId := loginId; data := None |}
      |} = Resolved response ∧
    ok response = true ∧
    json response = Resolved data ∧
    asLoginPayload data = Ok loginPayload ∧
    isEffective = isEffectiveIn (eventStatusMapOf loginPayload) eventIds.
Proof.
  unfold checkPushEvents.
  destruct (asBase64 _) as [loginId|] eqn:Hlogin; [|done]. simpl.
  destruct (fetch _ _) as [response| |] eqn:Hfetch; [|done..]. simpl.
  destruct (ok response) eqn:Hok; [|done]. simpl.
  destruct (json response) as [data| |] eqn:Hjson; [|done..]. simpl.
  destruct (asLoginPayload data) as [loginPayload|] eqn:Hclean; [|done]. simpl.
  intros [= <-]. by exists loginId, response, data, loginPayload.
Qed.

Lemma checkPushEvents_resolved_witness :
  ∃ loginId response,
    Sample.asText (rootLoginId Sample.account) = Ok loginId ∧
    Sample.server Sample.okResponse "https://push.example/v2/login" {|
        method := "POST";
        headers := [("Content-Type", "application/json")];
        request_body := Sample.wasBody {|
          apiKey := "key"; deviceId := "device";
          loginId := loginId; data := None |}
      |} = Resolved response ∧
    ok response = true.
Proof.
  destruct (checkPushEvents_resolved "key" "https://push.example" "device"
              Sample.asText Sample.asStatuses Sample.wasBody
              (Sample.server Sample.okResponse) Sample.account
              ["prog1:done"] true eq_refl)
    as (loginId & response & _ & _ & Hlogin & Hfetch & Hok & _).
  by exists loginId, response.
Defined.





(** X14: [uploadPushEvents] returns normally only after the [POST] to
    [/v2/login/update], whose data creates exactly the given events and
    removes none, was answered with an [ok] response; nothing is written to
    the console in that case. *)
Theorem uploadPushEvents_resolved {number binary Json : Type}
    (AIRBITZ_API_KEY pushServerUri device_id : string)
    (asBase64 : string → result binary)
    (asErrorResponse : string → result Json)
    (wasLoginUpdatePayload : LoginUpdatePayload number binary → Json)
    (wasPushRequestBody : PushRequestBody binary Json → string)
    (fetch : string → RequestInit → promise (Response Json))
    (account : EdgeAccount) (newPushEvents : list (NewPushEvent number binary)) :
  (uploadPushEvents AIRBITZ_API_KEY pushServerUri device_id asBase64
     asErrorResponse wasLoginUpdatePayload wasPushRequestBody fetch
     account newPushEvents).2 = Resolved () →
  (uploadPushEvents AIRBITZ_API_KEY pushServerUri device_id asBase64
     asErrorResponse wasLoginUpdatePayload wasPushRequestBody fetch
     account newPushEvents).1 = [] ∧
  ∃ loginId response,
    asBase64 (rootLoginId account) = Ok loginId ∧
    fetch (pushServerUri +:+ "/v2/login/update") {|
        method := "POST";
        headers := [("Content-Type", "application/json")];
        request_body := wasPushRequestBody {|
          apiKey := AIRBITZ_API_KEY; deviceId := device_id;
          loginId := loginId;
          data := Some (wasLoginUpdatePayload {|
                          createEvents := newPushEvents;
                          removeEvents := [] |}) |}
      |} = Resolved response ∧
    ok response = true.
Proof.
  unfold uploadPushEvents.
  destruct (asBase64 _) as [loginId|] eqn:Hlogin; [|done].
  destruct (fetch _ _) as [response| |] eqn:Hfetch; [|done..].
  destruct (ok response) eqn:Hok; simpl.
  - intros _. split; [done|]. by exists loginId, response.
  - by destruct (text response).
Qed.

Lemma uploadPushEvents_resolved_witness :
  ∃ response,
    Sample.server Sample.okResponse "https://push.example/v2/login/update" {|
        method := "POST";
        headers := [("Content-Type", "application/json")];
        request_body := Sample.wasBody {|
          apiKey := "key"; deviceId := "device"; loginId := "bG9naW4=";
          data := Some (Sample.wasPayload {| createEvents := [];
                                             removeEvents := [] |}) |}
      |} = Resolved response ∧
    ok response = true.
Proof.
  destruct (uploadPushEvents_resolved (number := N) "key" "https://push.example"
              "device" Sample.asText Sample.asNothing Sample.wasPayload
              Sample.wasBody (Sample.server Sample.okResponse) Sample.account
              [] eq_refl)
    as (_ & loginId & response & [= <-] & Hfetch & Hok).
  by exists response.
Defined.

(** X15: [uploadPushEvents] writes to the console at most once, and only
    on its way to failing: whenever something was logged, the response
    [fetch] gave to the [POST] to [/v2/login/update] was not [ok], the
    logged entry holds the body text of that response with what [asMaybe]
    made of it, and the outcome is the [Request failed with <status>] error
    for the status of that response. *)
Theorem uploadPushEvents_logged {number binary Json : Type}
    (AIRBITZ_API_KEY pushServerUri device_id : string)
    (asBase64 : string → result binary)
    (asErrorResponse : string → result Json)
    (wasLoginUpdatePayload : LoginUpdatePayload number binary → Json)
    (wasPushRequestBody : PushRequestBody binary Json → string)
    (fetch : string → RequestInit → promise (Response Json))
    (account : EdgeAccount) (newPushEvents : list (NewPushEvent number binary)) :
  (uploadPushEvents AIRBITZ_API_KEY pushServerUri device_id asBase64
     asErrorResponse wasLoginUpdatePayload wasPushRequestBody fetch
     account newPushEvents).1 ≠ [] →
  ∃ loginId (response : Response Json) body,
    asBase64 (rootLoginId account) = Ok loginId ∧
    fetch (pushServerUri +:+ "/v2/login/update") {|
        method := "POST";
        headers := [("Content-Type", "application/json")];
        request_body := wasPushRequestBody {|
          apiKey := AIRBITZ_API_KEY; deviceId := device_id;
          loginId := loginId;
          data := Some (wasLoginUpdatePayload {|
                          createEvents := newPushEvents;
                          removeEvents := [] |}) |}
      |} = Resolved response ∧
    ok response = false ∧
    text response = Resolved body ∧
    uploadPushEvents AIRBITZ_API_KEY pushServerUri device_id asBase64
      asErrorResponse wasLoginUpdatePayload wasPushRequestBody fetch
      account newPushEvents
    = ([ {| responseBody := body;
            responseData := asMaybe asErrorResponse body |} ],
       Rejected (mkError ("Request failed with " +:+ pretty (status response)))).
Proof.
  unfold uploadPushEvents.
  destruct (asBase64 _) as [loginId|] eqn:Hlogin; [|done].
  destruct (fetch _ _) as [response| |] eqn:Hfetch; [|done..].
  destruct (ok response) eqn:Hok; simpl; [done|].
  destruct (text response) as [body| |] eqn:Htext; [|done..].
  intros _. by exists loginId, response, body.
Qed.

Lemma uploadPushEvents_logged_witness :
  ∃ (response : Response string) body,
    Sample.server Sample.errorResponse
      "https://push.example/v2/login/update" {|
        method := "POST";
        headers := [("Content-Type", "application/json")];
        request_body := Sample.wasBody {|
          apiKey := "key"; deviceId := "device"; loginId := "bG9naW4=";
          data := Some (Sample.wasPayload {| createEvents := [];
                                             removeEvents := [] |}) |}
      |} = Resolved response ∧
    ok response = false ∧
    text response = Resolved body ∧
    uploadPushEvents (number := N) "key" "https://push.example" "device"
      Sample.asText Sample.asNothing Sample.wasPayload Sample.wasBody
      (Sample.server Sample.errorResponse) Sample.account []
    = ([ {| responseBody := body;
            responseData := asMaybe Sample.asNothing body |} ],
       Rejected (mkError ("Request failed with " +:+ pretty (status response)))).
Proof.
  destruct (uploadPushEvents_logged (number := N) "key" "https://push.example"
              "device" Sample.asText Sample.asNothing Sample.wasPayload
              Sample.wasBody (Sample.server Sample.errorResponse)
              Sample.account [])
    as (loginId & response & body & [= <-] & Hfetch & Hok & Htext & Hrun).
  - discriminate.
  - by exists response, body.
Defined.
